(** * Prompt notebooks: prompt construction, fuzzy scoring, feedback loops

    A shallow embedding of the Python cells of the notebooks

    - [prompt/04 - Text Classification.ipynb]  ([get_sentiment]),
    - [prompt/05 - Question Answering.ipynb]   ([get_answer],
      [get_fuzzy_match], the mean of [match_score], the closed-domain
      prompt of cell 9),
    - [code-generation/02 - Code Completion.ipynb] (the two
      [while(i<3)] feedback loops),

    together with the parts of the Python language and of the libraries
    those cells call (f-string evaluation, [pandas] [Series.apply] and
    [Series.mean], [fuzzywuzzy]'s [fuzz.partial_ratio]).

    Conventions.  A Python [str] is the list of its code points
    ([pystr]); a Python [int] is a [Z]; a [float] is the rational it
    denotes, every float operation rounding to the nearest double
    ([Float64.round_double]); a Python exception is the [Raise] branch of
    [pyresult]; the hosted model behind [predict] is an opaque
    state-passing oracle. *)

From Stdlib Require Import ZArith QArith Qround Qpower Lqa Ascii String List Lia.
From stdpp Require Import gmap strings list.

Set Default Goal Selector "!".

Local Open Scope Z_scope.

(** ** Python values and exceptions *)

(** A character is its code point, as [ord] gives it. *)
Definition pychar := N.

Definition pystr := list pychar.

(** An ASCII string literal of the notebooks, character by character. *)
Definition lit (s : string) : pystr := map N_of_ascii (list_ascii_of_string s).

(** The line feed (written [\n] in the cells, or a line break inside a
    triple-quoted literal) and the double quote. *)
Definition LF : pystr := [10%N].
Definition DQ : pystr := [34%N].

Inductive exn :=
| NameError (name : string)   (* name 'x' is not defined *)
| SyntaxError                 (* malformed f-string *)
| ValueError                  (* max() of nothing; a frame set to one column *)
| ServiceError.               (* any exception of the remote call *)

Inductive pyresult (A : Type) :=
| Ok (a : A)
| Raise (e : exn).
Arguments Ok {A} a.
Arguments Raise {A} e.

Global Instance pyresult_ret : MRet pyresult := fun A a => Ok a.

Global Instance pyresult_bind : MBind pyresult := fun A B k m =>
  match m with
  | Ok a => k a
  | Raise e => Raise e
  end.

(** ** f-strings

    The prompts are built by f-string literals.  Python splits such a
    literal into literal text and replacement fields ([{{] and [}}] stand
    for one literal brace) and, when the literal is evaluated, looks every
    field up in the enclosing scope and joins the pieces from left to
    right.  The notebooks only use bare names as fields ([{row}],
    [{context}], [{question}]); conversions, format specifications and
    general expressions are outside the modelled subset, and a field that
    is not an ASCII identifier is rejected like a malformed one. *)

Module FString.

Inductive segment :=
| Lit (text : pystr)
| Field (name : pystr).

Definition template := list segment.

Definition lbrace : pychar := 123%N.
Definition rbrace : pychar := 125%N.

(** Put one more literal character in front of a parsed tail. *)
Definition push_text (c : pychar) (tpl : template) : template :=
  match tpl with
  | Lit t :: r => Lit (c :: t) :: r
  | _ => Lit [c] :: tpl
  end.

(** Put one more character in front of the field that opens the tail. *)
Definition push_name (c : pychar) (tpl : template) : pyresult template :=
  match tpl with
  | Field n :: r => Ok (Field (c :: n) :: r)
  | _ => Raise SyntaxError
  end.

(** The scanner; [in_field] tells whether an opening brace is pending. *)
Fixpoint scan (s : pystr) (in_field : bool) : pyresult template :=
  match s with
  | [] => if in_field then Raise SyntaxError else Ok []
  | c :: s' =>
    if in_field then
      if N.eqb c rbrace then
        (tpl ← scan s' false; Ok (Field [] :: tpl))
      else
        (tpl ← scan s' true; push_name c tpl)
    else if N.eqb c lbrace then
      match s' with
      | c' :: s'' =>
        if N.eqb c' lbrace
        then (tpl ← scan s'' false; Ok (push_text lbrace tpl))
        else scan s' true
      | [] => Raise SyntaxError
      end
    else if N.eqb c rbrace then
      match s' with
      | c' :: s'' =>
        if N.eqb c' rbrace
        then (tpl ← scan s'' false; Ok (push_text rbrace tpl))
        else Raise SyntaxError
      | [] => Raise SyntaxError
      end
    else
      (tpl ← scan s' false; Ok (push_text c tpl))
  end.

Definition is_alpha (c : pychar) : bool :=
  ((65 <=? c)%N && (c <=? 90)%N) || ((97 <=? c)%N && (c <=? 122)%N)
  || (c =? 95)%N.

Definition is_digit (c : pychar) : bool := (48 <=? c)%N && (c <=? 57)%N.

Definition is_identifier (n : pystr) : bool :=
  match n with
  | [] => false
  | c :: r => is_alpha c && forallb (fun d => is_alpha d || is_digit d) r
  end.

Definition valid_segment (sg : segment) : bool :=
  match sg with
  | Lit _ => true
  | Field n => is_identifier n
  end.

(** Compile-time part of an f-string: the literal text split in segments. *)
Definition parse (s : pystr) : pyresult template :=
  tpl ← scan s false;
  if forallb valid_segment tpl then Ok tpl else Raise SyntaxError.

(** The names of the replacement fields, in order of appearance. *)
Fixpoint fields (tpl : template) : list pystr :=
  match tpl with
  | [] => []
  | Lit _ :: r => fields r
  | Field n :: r => n :: fields r
  end.

(** The literal characters, in order of appearance. *)
Fixpoint literal_text (tpl : template) : pystr :=
  match tpl with
  | [] => []
  | Lit t :: r => t ++ literal_text r
  | Field _ :: r => literal_text r
  end.

(** The scope an f-string is evaluated in: name to value. *)
Abbreviation scope := (gmap string pystr).

(** The name a field spells; fields are ASCII identifiers. *)
Definition name_of (n : pystr) : string :=
  string_of_list_ascii (map ascii_of_N n).

Definition lookup_name (B : scope) (n : pystr) : option pystr :=
  B !! name_of n.

(** Run-time part: fields are evaluated from left to right, the first
    unbound name raises [NameError], the pieces are joined. *)
Fixpoint eval (B : scope) (tpl : template) : pyresult pystr :=
  match tpl with
  | [] => Ok []
  | Lit t :: r => (rest ← eval B r; Ok (t ++ rest))
  | Field n :: r =>
    match lookup_name B n with
    | None => Raise (NameError (name_of n))
    | Some v => (rest ← eval B r; Ok (v ++ rest))
    end
  end.

(** [f"...{x}..."] evaluated in scope [B]. *)
Definition render (T : pystr) (B : scope) : pyresult pystr :=
  (tpl ← parse T; eval B tpl).

(** Re-extraction of the placeholders of a string. *)
Definition placeholders (s : pystr) : pyresult (list pystr) :=
  (tpl ← parse s; Ok (fields tpl)).

(** The value a template denotes once its fields are bound: every field
    replaced by its value (nothing for an unbound one), literals kept. *)
Definition substitute (B : scope) (tpl : template) : pystr :=
  concat (map (fun sg => match sg with
                         | Lit t => t
                         | Field n => default [] (lookup_name B n)
                         end) tpl).

Definition brace_free (s : pystr) : Prop :=
  (lbrace ∉ s) ∧ (rbrace ∉ s).

End FString.

(** ** The prompt literals of the notebooks

    Escapes are decoded: [\n] and the line breaks of the triple-quoted
    literals are line feeds. *)

Module Prompts.

(** [get_sentiment], prompt/04 - Text Classification.ipynb, cell 19. *)
Definition get_sentiment_template : pystr :=
  lit "Classify the sentiment of the following review as " ++ DQ ++
  lit "positive" ++ DQ ++ lit ", " ++ DQ ++ lit "neutral" ++ DQ ++
  lit " and " ++ DQ ++ lit "negative" ++ DQ ++ lit ". " ++ LF ++ LF ++ LF ++
  lit "                review: {row} " ++ LF ++ LF ++
  lit "                sentiment:" ++ LF ++
  lit "              ".

(** [get_answer], prompt/05 - Question Answering.ipynb, cell 16. *)
Definition get_answer_template : pystr :=
  lit "Answer the following question as precise as possible." ++
  LF ++ LF ++ LF ++
  lit "            question: {row}" ++ LF ++
  lit "            answer:" ++ LF ++
  lit "              ".

(** The closed-domain prompt of prompt/05 - Question Answering.ipynb,
    cell 9, which quotes [{Context:}] with doubled braces. *)
Definition closed_domain_template : pystr :=
  lit "Answer the question given the context below as {{Context:}}. " ++
  LF ++ LF ++
  lit "If the answer is not available in the {{Context:}} and you are not confident about the output," ++
  LF ++
  lit "please say " ++ DQ ++
  lit "Information not available in provided context" ++ DQ ++ lit ". " ++
  LF ++ LF ++ LF ++
  lit "Context: {context}?" ++ LF ++ LF ++
  lit "Question: {question} " ++ LF ++ LF ++
  lit "Answer:" ++ LF.

(** The local scope of [get_sentiment(row)] and of [get_answer(row)]. *)
Definition row_scope (row : pystr) : FString.scope := {[ "row"%string := row ]}.

Definition get_sentiment_prompt (row : pystr) : pyresult pystr :=
  FString.render get_sentiment_template (row_scope row).

Definition get_answer_prompt (row : pystr) : pyresult pystr :=
  FString.render get_answer_template (row_scope row).

(** The scope of cell 9: the globals [context] and [question]. *)
Definition closed_domain_prompt (context question : pystr) : pyresult pystr :=
  FString.render closed_domain_template
    (<[ "context"%string := context ]> {[ "question"%string := question ]}).

(** The fixed text around the interpolated input, written out by hand. *)
Definition sentiment_before : pystr :=
  lit "Classify the sentiment of the following review as " ++ DQ ++
  lit "positive" ++ DQ ++ lit ", " ++ DQ ++ lit "neutral" ++ DQ ++
  lit " and " ++ DQ ++ lit "negative" ++ DQ ++ lit ". " ++ LF ++ LF ++ LF ++
  lit "                review: ".

Definition sentiment_after : pystr :=
  lit " " ++ LF ++ LF ++ lit "                sentiment:" ++ LF ++
  lit "              ".

Definition answer_before : pystr :=
  lit "Answer the following question as precise as possible." ++
  LF ++ LF ++ LF ++ lit "            question: ".

Definition answer_after : pystr :=
  LF ++ lit "            answer:" ++ LF ++ lit "              ".

End Prompts.

(** ** Running cells against the hosted model

    [predict] stands for [generation_model.predict(prompt=...).text] and
    [code_completion_model.predict(prefix=...).text]: an opaque remote
    call that may answer differently each time (it threads the state of
    the outside [World]) and may raise.  A run records every call made,
    with its outcome, and everything printed. *)

Section Cells.

Context {World : Type}.
Variable predict : World -> pystr -> pyresult pystr * World.

Record run := {
  world : World;
  calls : list (pystr * pyresult pystr);
  stdout : list pystr
}.

Definition start (w : World) : run :=
  {| world := w; calls := []; stdout := [] |}.

(** Cell code: state passing, an exception ends the cell. *)
Definition Cell (A : Type) : Type := run -> pyresult A * run.

#[local] Instance cell_ret : MRet Cell := fun A a st => (Ok a, st).

#[local] Instance cell_bind : MBind Cell := fun A B k m st =>
  match m st with
  | (Ok a, st') => k a st'
  | (Raise e, st') => (Raise e, st')
  end.

Definition lift {A} (r : pyresult A) : Cell A := fun st => (r, st).

Definition call_predict (prompt : pystr) : Cell pystr := fun st =>
  let '(r, w') := predict (world st) prompt in
  (r, {| world := w'; calls := calls st ++ [(prompt, r)]; stdout := stdout st |}).

Definition print (text : pystr) : Cell unit := fun st =>
  (Ok tt, {| world := world st; calls := calls st; stdout := stdout st ++ [text] |}).

(** *** Per-record prompt builders *)

Definition get_sentiment (row : pystr) : Cell pystr :=
  prompt ← lift (Prompts.get_sentiment_prompt row);
  response ← call_predict prompt;
  mret response.

Definition get_answer (row : pystr) : Cell pystr :=
  prompt ← lift (Prompts.get_answer_prompt row);
  call_predict prompt.

(** *** pandas: [Series.apply] and column assignment

    [Series.apply(func)] calls [func] on the values in index order and
    collects the results under the same index; an exception of [func]
    propagates. *)
Fixpoint series_apply {A B} (func : A -> Cell B) (s : list A) : Cell (list B) :=
  match s with
  | [] => mret []
  | x :: s' =>
    y ← func x;
    ys ← series_apply func s';
    mret (y :: ys)
  end.

Record review_row := {
  review : pystr;
  sentiment_groundtruth : pystr
}.

Record review_predicted := {
  review_of :> review_row;
  sentiment_prediction : pystr
}.

Record qa_row := {
  question : pystr;
  answer_groundtruth : pystr
}.

Record qa_answered := {
  qa_of :> qa_row;
  answer_prediction : pystr
}.

(** [review_data_df["sentiment_prediction"] =
     review_data_df["review"].apply(get_sentiment)] *)
Definition predict_sentiments (review_data_df : list review_row)
  : Cell (list review_predicted) :=
  column ← series_apply get_sentiment (map review review_data_df);
  mret (zip_with Build_review_predicted review_data_df column).

(** [qa_data_df["answer_prediction"] =
     qa_data_df["question"].apply(get_answer)] *)
Definition predict_answers (qa_data_df : list qa_row)
  : Cell (list qa_answered) :=
  column ← series_apply get_answer (map question qa_data_df);
  mret (zip_with Build_qa_answered qa_data_df column).

(** *** The feedback loops of the code-completion notebook

    [while] needs fuel in Rocq; [None] means the fuel ran out. *)
Fixpoint while {V} (fuel : nat) (cond : V -> bool) (body : V -> Cell V) (s : V)
  : run -> option (pyresult V * run) := fun st =>
  if cond s then
    match fuel with
    | O => None
    | S fuel' =>
      match body s st with
      | (Ok s', st') => while fuel' cond body s' st'
      | (Raise e, st') => Some (Raise e, st')
      end
    end
  else Some (Ok s, st).

(** The loop state: the variables [prefix] and [i]. *)
Record loop_vars := { prefix : pystr; i : Z }.

(** [[
    i = 0
    while(i<N):
      response = code_completion_model.predict(prefix=prefix,)
      print(response.text)
      prefix = next_prompt(response.text)
      i+=1
    ]]
    The notebook has [N = 3] and uses the response text itself as the
    next prefix ([prefix = response.text]). *)
Definition feedback_body (next_prompt : pystr -> pystr) (v : loop_vars)
  : Cell loop_vars :=
  response ← call_predict (prefix v);
  _ ← print response;
  mret {| prefix := next_prompt response; i := i v + 1 |}.

Definition feedback_loop (next_prompt : pystr -> pystr) (N : Z)
    (fuel : nat) (seed : pystr) : run -> option (pyresult loop_vars * run) :=
  while fuel (fun v => i v <? N) (feedback_body next_prompt)
        {| prefix := seed; i := 0 |}.

(** code-generation/02 - Code Completion.ipynb, cells 44 and 45. *)
Definition completion_loop (N : Z) (fuel : nat) (seed : pystr)
  : run -> option (pyresult loop_vars * run) :=
  feedback_loop (fun text => text) N fuel seed.

Definition cell_44 (fuel : nat) :=
  completion_loop 3 fuel (lit "def find_max_element(list):").

Definition cell_45 (fuel : nat) :=
  completion_loop 3 fuel
    (lit "class Dog:" ++ LF ++
     lit "              def bark(self):" ++ LF ++
     lit "                print(" ++ DQ ++ lit "Woof!" ++ DQ ++ lit ")" ++ LF ++
     lit "          ").

(** The prompts sent and the texts received, in call order. *)
Definition prompts_sent (st : run) : list pystr := map fst (calls st).

Definition responses (st : run) : list pystr :=
  omap (fun c => match snd c with Ok r => Some r | Raise _ => None end) (calls st).

End Cells.

Arguments run World : clear implicits.
Arguments Cell World A : clear implicits.

(** The log entry of a call that returned. *)
Definition logged (prompt response : pystr) : pystr * pyresult pystr :=
  (prompt, Ok response).

(** A collaborator that answers every call. *)
Definition responsive {World} (predict : World -> pystr -> pyresult pystr * World) : Prop :=
  ∀ w p, ∃ r w', predict w p = (Ok r, w').

(** A stand-in model for examples: it answers every prompt with the
    prompt followed by an exclamation mark and counts its calls. *)
Definition echo (w : nat) (prompt : pystr) : pyresult pystr * nat :=
  (Ok (prompt ++ lit "!"), S w).

(** ** Floats

    A Python [float] is an IEEE 754 double.  It is modelled by the
    rational number it denotes, and every operation on floats returns
    the double nearest to the exact result, ties going to the even
    mantissa ([round_double]).  The exponent range is not modelled: the
    numbers at hand are quotients of string lengths, percentages and
    their means, far from overflow and from the subnormal numbers. *)

Module Float64.

(** To the nearest integer, ties to even. *)
Definition nearest_even (q : Q) : Z :=
  let f := Qfloor q in
  match (q - inject_Z f ?= 1 # 2)%Q with
  | Lt => f
  | Gt => f + 1
  | Eq => if Z.even f then f else f + 1
  end.

(** For [q > 0], the [k] with [2^k <= q < 2^(k+1)]. *)
Definition binade (q : Q) : Z :=
  let k := Z.log2 (Qnum q) - Z.log2 (Zpos (Qden q)) in
  if Qle_bool (2 ^ k) q then k else k - 1.

(** The double nearest to [q > 0]: a mantissa of 53 bits. *)
Definition round_positive (q : Q) : Q :=
  let e := binade q - 52 in
  (inject_Z (nearest_even (q * 2 ^ (- e))) * 2 ^ e)%Q.

Definition round_double (q : Q) : Q :=
  let q := Qred q in
  match Qnum q with
  | Z0 => 0%Q
  | Zpos _ => round_positive q
  | Zneg _ => (- round_positive (- q))%Q
  end.

(** [x * y] of two doubles. *)
Definition fmul (x y : Q) : Q := round_double (x * y).

(** A decimal literal such as [.995]. *)
Definition literal (q : Q) : Q := round_double q.

End Float64.

(** ** fuzzywuzzy: [fuzz.partial_ratio]

    The notebook installs [python-Levenshtein], so [fuzz] takes its
    [SequenceMatcher] from [StringMatcher]: [ratio()] is
    [Levenshtein.ratio], that is [(len1 + len2 - d) / (len1 + len2)] with
    [d] the edit distance in which a substitution costs two (shown below
    to be [2 * M / T] with [M] the length of a longest common subsequence
    and [T = len1 + len2]); [get_matching_blocks()] ends, like [difflib]'s,
    with the block [(len1, len2, 0)].  Which blocks come before that one
    depends on the edit path the C code picks; they are a parameter here
    ([inner_blocks]).  The quotient, the comparison with [.995] and the
    product by [100] are float operations. *)

Module Fuzz.

(** Python 3 [round] on a number: to the nearest integer, ties to even. *)
Definition py_round (q : Q) : Z :=
  let f := Qfloor q in
  match (q - inject_Z f ?= 1 # 2)%Q with
  | Lt => f
  | Gt => f + 1
  | Eq => if Z.even f then f else f + 1
  end.

(** [utils.intr(n) = int(round(n))] *)
Definition intr (n : Q) : Z := py_round n.

(** [max] keeps the first of several largest items. *)
Fixpoint max_from (best : Q) (rest : list Q) : Q :=
  match rest with
  | [] => best
  | r :: rest' => max_from (if Qle_bool r best then best else r) rest'
  end.

Definition py_max (scores : list Q) : pyresult Q :=
  match scores with
  | [] => Raise ValueError
  | r :: rest => Ok (max_from r rest)
  end.

Definition block : Type := Z * Z * Z.

Section Matcher.

Context {A : Type} `{EqDecision A}.
Variable inner_blocks : list A -> list A -> list block.

Definition len (s : list A) : Z := Z.of_nat (length s).

(** [s[start:stop]] for [0 <= start] and [0 <= stop]. *)
Definition slice (s : list A) (start stop : Z) : list A :=
  take (Z.to_nat stop - Z.to_nat start)%nat (drop (Z.to_nat start) s).

(** Length of a longest common subsequence: the number of matching
    characters of the best alignment of [a] and [b]. *)
Fixpoint lcs (a b : list A) {struct a} : nat :=
  match a with
  | [] => O
  | x :: a' =>
    (fix lcs_row (b : list A) : nat :=
       match b with
       | [] => O
       | y :: b' =>
         if decide (x = y) then S (lcs a' b')
         else Nat.max (lcs a' b) (lcs_row b')
       end) b
  end.

(** The edit distance [Levenshtein.ratio] works with: an insertion or a
    deletion costs one, a substitution costs two. *)
Fixpoint distance (a b : list A) {struct a} : nat :=
  match a with
  | [] => length b
  | x :: a' =>
    (fix distance_row (b : list A) : nat :=
       match b with
       | [] => length a
       | y :: b' =>
         Nat.min (Nat.min (S (distance a' b)) (S (distance_row b')))
                 ((if decide (x = y) then 0 else 2) + distance a' b')
       end) b
  end.

(** The quotient of [Levenshtein.ratio(a, b)]:
    [(lensum - ldist) / lensum], and [1.0] for two empty strings. *)
Definition ratio (a b : list A) : Q :=
  let lensum := len a + len b in
  if lensum =? 0 then 1%Q
  else Qmake (lensum - Z.of_nat (distance a b)) (Z.to_pos lensum).

(** [Levenshtein.ratio(a, b)], the float that one division returns. *)
Definition float_ratio (a b : list A) : Q :=
  Float64.round_double (ratio a b).

Definition get_matching_blocks (a b : list A) : list block :=
  inner_blocks a b ++ [(len a, len b, 0)].

(** The substring of [longer] a block aligns [shorter] with. *)
Definition long_substr (shorter longer : list A) (blk : block) : list A :=
  let '(b0, b1, _) := blk in
  let long_start := if 0 <? b1 - b0 then b1 - b0 else 0 in
  let long_end := long_start + len shorter in
  slice longer long_start long_end.

(** [[
    scores = []
    for block in blocks:
        ...
        r = m2.ratio()
        if r > .995:
            return 100
        else:
            scores.append(r)
    return utils.intr(100 * max(scores))
    ]] *)
Fixpoint best_block (shorter longer : list A) (blocks : list block)
    (scores : list Q) : pyresult Z :=
  match blocks with
  | [] => m ← py_max scores; Ok (intr (Float64.fmul 100 m))
  | blk :: blocks' =>
    let r := float_ratio shorter (long_substr shorter longer blk) in
    if negb (Qle_bool r (Float64.literal (995 # 1000))) then Ok 100
    else best_block shorter longer blocks' (scores ++ [r])
  end.

Definition shorter_of (s1 s2 : list A) : list A :=
  if len s1 <=? len s2 then s1 else s2.

Definition longer_of (s1 s2 : list A) : list A :=
  if len s1 <=? len s2 then s2 else s1.

Definition partial_ratio_body (s1 s2 : list A) : pyresult Z :=
  let shorter := shorter_of s1 s2 in
  let longer := longer_of s1 s2 in
  best_block shorter longer (get_matching_blocks shorter longer) [].

(** The decorators of [fuzzywuzzy.utils]. *)
Definition check_empty_string (func : list A -> list A -> pyresult Z)
    (s1 s2 : list A) : pyresult Z :=
  if (len s1 =? 0) || (len s2 =? 0) then Ok 0 else func s1 s2.

Definition check_for_equivalence (func : list A -> list A -> pyresult Z)
    (s1 s2 : list A) : pyresult Z :=
  if decide (s1 = s2) then Ok 100 else func s1 s2.

Definition check_for_none (func : list A -> list A -> pyresult Z)
    (s1 s2 : option (list A)) : pyresult Z :=
  match s1, s2 with
  | Some a, Some b => func a b
  | _, _ => Ok 0
  end.

(** [[
    @utils.check_for_none
    @utils.check_for_equivalence
    @utils.check_empty_string
    def partial_ratio(s1, s2):
    ]] *)
Definition partial_ratio : option (list A) -> option (list A) -> pyresult Z :=
  check_for_none (check_for_equivalence (check_empty_string partial_ratio_body)).

(** The score of two strings. *)
Definition score (expected predicted : list A) : pyresult Z :=
  partial_ratio (Some expected) (Some predicted).

(** What the loop makes of one ratio: [100] when it exceeds [.995],
    and otherwise, if it is the largest, [intr(100 * r)]. *)
Definition ratio_score (r : Q) : Z :=
  if negb (Qle_bool r (Float64.literal (995 # 1000))) then 100
  else intr (Float64.fmul 100 r).

(** The score of one alignment of [shorter] with the window [w]. *)
Definition window_score (shorter w : list A) : Z :=
  ratio_score (float_ratio shorter w).

(** The ratio [partial_ratio] computes for a block. *)
Definition block_ratio (shorter longer : list A) (blk : block) : Q :=
  float_ratio shorter (long_substr shorter longer blk).

(** The windows [partial_ratio] looks at. *)
Definition candidate_windows (shorter longer : list A) : list (list A) :=
  map (long_substr shorter longer) (get_matching_blocks shorter longer).

End Matcher.


End Fuzz.


(** ** Question answering: scoring and averaging *)

(** A [float64] result of pandas: a number or [nan]. *)
Inductive pyfloat :=
| NaN
| Num (q : Q).

Module Pandas.

(** [Series.mean()] of an integer column: the sum divided by the count,
    one float division, and [nan] for a column without values; it does
    not raise. *)
Definition mean (s : list Z) : pyfloat :=
  let count := Z.of_nat (length s) in
  if count =? 0 then NaN
  else Num (Float64.round_double (Qmake (foldr Z.add 0 s) (Z.to_pos count))).

End Pandas.

Section Scoring.

Variable inner_blocks : pystr -> pystr -> list Fuzz.block.

Record qa_scored := {
  scored_of :> qa_answered;
  match_score : Z
}.

(** [def get_fuzzy_match(df):
       return fuzz.partial_ratio(df["answer_groundtruth"],
                                 df["answer_prediction"])] *)
Definition get_fuzzy_match (df : qa_answered) : pyresult Z :=
  Fuzz.partial_ratio inner_blocks
    (Some (answer_groundtruth df)) (Some (answer_prediction df)).

(** [get_fuzzy_match] on the rows of a frame, in index order. *)
Fixpoint score_each (rows : list qa_answered) : pyresult (list qa_scored) :=
  match rows with
  | [] => Ok []
  | row :: rest =>
    s ← get_fuzzy_match row;
    scored ← score_each rest;
    Ok ({| scored_of := row; match_score := s |} :: scored)
  end.

(** [qa_data_df["match_score"] = qa_data_df.apply(get_fuzzy_match, axis=1)]

    On a frame with rows, [apply] returns the column of the results.  On
    a frame without rows it returns an empty frame with the three
    columns of [qa_data_df], and the assignment of that frame to the one
    column [match_score] raises [ValueError]. *)
Definition score_rows (qa_data_df : list qa_answered) : pyresult (list qa_scored) :=
  match qa_data_df with
  | [] => Raise ValueError
  | _ :: _ => score_each qa_data_df
  end.

(** [qa_data_df["match_score"].mean()] *)
Definition average_match_score (qa_data_df : list qa_scored) : pyresult pyfloat :=
  Ok (Pandas.mean (map match_score qa_data_df)).


End Scoring.

(** ** The question-answering cells that read a context

    prompt/05 - Question Answering.ipynb, cells 8 and 9.  Both cells work
    on the globals of the kernel: cell 8 assigns [context], [question]
    and [prompt]; cell 9 assigns [question] and [prompt] and reads the
    [context] an earlier cell left.  A cell is given as the globals it
    leaves and the effects it runs once the prompt is built; its value is
    the text handed to [display(Markdown(...))]. *)

Module ContextCells.

(** The keyword arguments of [predict] these cells pass. *)
Record options := {
  max_output_tokens : option Z;
  temperature : option Q
}.

Definition no_options : options :=
  {| max_output_tokens := None; temperature := None |}.

Definition context_text : pystr :=
  LF ++ lit "Storage and content policy " ++ LF ++ LF ++
  lit "How durable is my data in Cloud Storage? " ++ LF ++ LF ++
  lit "Cloud Storage is designed for 99.999999999% (11 9's) annual durability, which is appropriate for even primary storage and" ++
  LF ++
  lit "business-critical applications. This high durability level is achieved through erasure coding that stores data pieces redundantly" ++
  LF ++
  lit "across multiple devices located in multiple availability zones." ++
  LF ++
  lit "Objects written to Cloud Storage must be redundantly stored in at least two different availability zones before the" ++
  LF ++
  lit "write is acknowledged as successful. Checksums are stored and regularly revalidated to proactively verify that the data" ++
  LF ++
  lit "integrity of all data at rest as well as to detect corruption of data in transit. If required, corrections are automatically" ++
  LF ++
  lit "made using redundant data. Customers can optionally enable object versioning to add protection against accidental deletion." ++
  LF.

Definition question_8 : pystr := lit "How is high availability achieved?".

Definition question_9 : pystr :=
  lit "What machined are required for hosting Vertex AI models?".

Definition open_book_template : pystr :=
  lit "Answer the question given in the contex below:" ++ LF ++
  lit "Context: {context}?" ++ LF ++ LF ++ lit "Question: {question} " ++
  LF ++ LF ++ lit "Answer:" ++ LF.

(** The fixed text of the two prompts, written out by hand. *)
Definition open_before : pystr :=
  lit "Answer the question given in the contex below:" ++ LF ++
  lit "Context: ".

Definition closed_before : pystr :=
  lit "Answer the question given the context below as {Context:}. " ++ LF ++
  LF ++
  lit "If the answer is not available in the {Context:} and you are not confident about the output," ++
  LF ++ lit "please say " ++ DQ ++
  lit "Information not available in provided context" ++ DQ ++ lit ". " ++
  LF ++ LF ++ LF ++ lit "Context: ".

Definition middle : pystr := lit "?" ++ LF ++ LF ++ lit "Question: ".

Definition after : pystr := lit " " ++ LF ++ LF ++ lit "Answer:" ++ LF.

Section Run.

Context {World : Type}.
Variable predict_with : options -> World -> pystr -> pyresult pystr * World.

#[local] Existing Instance cell_ret.
#[local] Existing Instance cell_bind.

(** [[
    print("[Prompt]")
    print(prompt)
    print("[Response]")
    display(Markdown(generation_model.predict(prompt, ...).text))
    ]] *)
Definition show_and_ask (opts : options) (prompt : pystr) : Cell World pystr :=
  _ ← print (lit "[Prompt]");
  _ ← print prompt;
  _ ← print (lit "[Response]");
  call_predict (predict_with opts) prompt.

Definition build_then (globals : FString.scope) (template : pystr)
    (opts : options) : FString.scope * Cell World pystr :=
  match FString.render template globals with
  | Ok prompt => (<[ "prompt"%string := prompt ]> globals, show_and_ask opts prompt)
  | Raise e => (globals, lift (Raise e))
  end.

Definition qa_cell_8 (globals : FString.scope) : FString.scope * Cell World pystr :=
  let globals := <[ "context"%string := context_text ]> globals in
  let globals := <[ "question"%string := question_8 ]> globals in
  build_then globals open_book_template no_options.

Definition qa_cell_9 (globals : FString.scope) : FString.scope * Cell World pystr :=
  let globals := <[ "question"%string := question_9 ]> globals in
  build_then globals Prompts.closed_domain_template
    {| max_output_tokens := Some 256; temperature := Some (3 # 10)%Q |}.

End Run.

End ContextCells.

(** ** Writing a literal text as an f-string

    Cell 9 doubles the braces of [{Context:}] to have them in the prompt;
    [double_braces] does that to every brace of a text. *)
Fixpoint double_braces (s : pystr) : pystr :=
  match s with
  | [] => []
  | c :: s' =>
    if N.eqb c FString.lbrace || N.eqb c FString.rbrace
    then c :: c :: double_braces s'
    else c :: double_braces s'
  end.

(** The template of a text without fields. *)
Definition text_template (s : pystr) : FString.template :=
  match s with [] => [] | _ => [FString.Lit s] end.

(** The text a logged call returned, if it returned. *)
Definition text_of (c : pystr * pyresult pystr) : option pystr :=
  match snd c with Ok r => Some r | Raise _ => None end.

(** * Properties *)

Ltac py_simpl :=
  repeat (simpl in *; unfold mbind, mret, pyresult_bind, pyresult_ret in * ).

(** ** f-strings *)

Module FStringFacts.
Import FString.

Lemma substitute_cons_lit B t r :
  substitute B (Lit t :: r) = t ++ substitute B r.
Proof. reflexivity. Qed.

Lemma substitute_cons_field B n r :
  substitute B (Field n :: r) = default [] (lookup_name B n) ++ substitute B r.
Proof. reflexivity. Qed.

(** With every field bound, evaluation is substitution. *)
Lemma eval_covering B tpl :
  (∀ x, x ∈ fields tpl → is_Some (lookup_name B x)) →
  eval B tpl = Ok (substitute B tpl).
Proof.
  induction tpl as [|[t|n] r IH]; intros Hcov.
  - reflexivity.
  - py_simpl. rewrite IH by exact Hcov. reflexivity.
  - destruct (Hcov n) as [v Hv]; [left|].
    assert (Hr : eval B r = Ok (substitute B r)).
    { apply IH. intros x Hx. apply Hcov. now right. }
    rewrite substitute_cons_field. cbn [eval]. rewrite Hv, Hr. reflexivity.
Qed.

(** The first unbound field stops the evaluation and is the one named. *)
Lemma eval_unbound B tpl x :
  x ∈ fields tpl → lookup_name B x = None →
  ∃ pre y post,
    fields tpl = pre ++ y :: post ∧
    (∀ z, z ∈ pre → is_Some (lookup_name B z)) ∧
    lookup_name B y = None ∧
    eval B tpl = Raise (NameError (name_of y)).
Proof.
  induction tpl as [|[t|n] r IH]; intros Hx Hnone.
  - inversion Hx.
  - destruct (IH Hx Hnone) as (pre & y & post & Hf & Hpre & Hy & He).
    exists pre, y, post. repeat split; try assumption.
    cbn [eval]. rewrite He. reflexivity.
  - destruct (lookup_name B n) as [v|] eqn:Hn.
    + assert (Hx' : x ∈ fields r).
      { cbn [fields] in Hx. apply elem_of_cons in Hx as [->|Hx]; [congruence|done]. }
      destruct (IH Hx' Hnone) as (pre & y & post & Hf & Hpre & Hy & He).
      exists (n :: pre), y, post. repeat split; try assumption.
      * cbn [fields]. now rewrite Hf.
      * intros z Hz. apply elem_of_cons in Hz as [->|Hz]; [now exists v|auto].
      * cbn [eval]. rewrite Hn, He. reflexivity.
    + exists [], n, (fields r). repeat split; try assumption.
      * intros z Hz. inversion Hz.
      * cbn [eval]. now rewrite Hn.
Qed.

Lemma literal_sublist B tpl : literal_text tpl `sublist_of` substitute B tpl.
Proof.
  induction tpl as [|[t|n] r IH].
  - constructor.
  - rewrite substitute_cons_lit. cbn [literal_text]. now apply sublist_app.
  - rewrite substitute_cons_field. cbn [literal_text]. now apply sublist_inserts_l.
Qed.

Lemma brace_free_app s t : brace_free (s ++ t) ↔ brace_free s ∧ brace_free t.
Proof. unfold brace_free. rewrite !elem_of_app. tauto. Qed.

Lemma brace_free_nil : brace_free [].
Proof. split; apply not_elem_of_nil. Qed.

Lemma brace_free_cons c s :
  brace_free (c :: s) ↔ (c ≠ lbrace ∧ c ≠ rbrace) ∧ brace_free s.
Proof.
  unfold brace_free. rewrite !elem_of_cons.
  split.
  - intros [H1 H2]. repeat split; intro; [apply H1|apply H2|apply H1|apply H2]; auto.
  - intros [[H1 H2] [H3 H4]]. split; intros [?|?]; auto; congruence.
Qed.

Lemma substitute_brace_free B tpl :
  brace_free (literal_text tpl) →
  (∀ x v, x ∈ fields tpl → lookup_name B x = Some v → brace_free v) →
  brace_free (substitute B tpl).
Proof.
  induction tpl as [|[t|n] r IH]; intros Hlit Hval.
  - apply brace_free_nil.
  - cbn [literal_text] in Hlit. apply brace_free_app in Hlit as [Ht Hr].
    rewrite substitute_cons_lit. apply brace_free_app. split; [exact Ht|].
    apply IH; [exact Hr|exact Hval].
  - rewrite substitute_cons_field. apply brace_free_app. split.
    + destruct (lookup_name B n) as [v|] eqn:Hn; [|apply brace_free_nil].
      apply (Hval n v); [left|exact Hn].
    + apply IH; [exact Hlit|]. intros x v Hx. apply Hval. now right.
Qed.

(** A text without braces is one literal segment. *)
Lemma scan_brace_free s :
  brace_free s →
  scan s false = Ok (match s with [] => [] | _ => [Lit s] end).
Proof.
  induction s as [|c s IH]; intros Hs; [reflexivity|].
  apply brace_free_cons in Hs as [[Hl Hr] Hs].
  cbn [scan].
  destruct (N.eqb_spec c lbrace) as [->|_]; [congruence|].
  destruct (N.eqb_spec c rbrace) as [->|_]; [congruence|].
  rewrite (IH Hs). destruct s; reflexivity.
Qed.

Lemma placeholders_brace_free s : brace_free s → placeholders s = Ok [].
Proof.
  intros Hs. unfold placeholders, parse. rewrite (scan_brace_free s Hs).
  destruct s; reflexivity.
Qed.

End FStringFacts.

(** ** The prompts of the notebooks *)

Module PromptFacts.
Import FString Prompts.

Lemma parse_get_sentiment :
  parse get_sentiment_template
  = Ok [Lit sentiment_before; Field (lit "row"); Lit sentiment_after].
Proof. vm_compute. reflexivity. Qed.

Lemma parse_get_answer :
  parse get_answer_template
  = Ok [Lit answer_before; Field (lit "row"); Lit answer_after].
Proof. vm_compute. reflexivity. Qed.

Lemma lookup_row (row : pystr) : lookup_name (row_scope row) (lit "row") = Some row.
Proof.
  unfold lookup_name, row_scope.
  change (FString.name_of (lit "row")) with "row"%string.
  apply lookup_singleton_eq.
Qed.

Lemma get_sentiment_prompt_eq (row : pystr) :
  get_sentiment_prompt row = Ok (sentiment_before ++ row ++ sentiment_after).
Proof.
  unfold get_sentiment_prompt, render. rewrite parse_get_sentiment.
  unfold mbind, pyresult_bind. cbn [eval]. rewrite lookup_row.
  unfold mbind, pyresult_bind. now rewrite app_nil_r.
Qed.

Lemma get_answer_prompt_eq (row : pystr) :
  get_answer_prompt row = Ok (answer_before ++ row ++ answer_after).
Proof.
  unfold get_answer_prompt, render. rewrite parse_get_answer.
  unfold mbind, pyresult_bind. cbn [eval]. rewrite lookup_row.
  unfold mbind, pyresult_bind. now rewrite app_nil_r.
Qed.

End PromptFacts.

(** C3, as stated, fails: rendering keeps braces.  The closed-domain
    prompt of cell 9 writes [{{Context:}}], so its output holds the
    braces of [{Context:}]; and a question that itself reads [{row}] is
    interpolated unchanged by [get_answer], so that re-extracting the
    placeholders of the output yields [row] again, although the scope
    binds every placeholder of the template. *)
Lemma render_keeps_braces :
  (∃ out, Prompts.closed_domain_prompt (lit "c") (lit "q") = Ok out ∧
          FString.lbrace ∈ out ∧ FString.rbrace ∈ out) ∧
  (∃ tpl out,
     FString.parse Prompts.get_answer_template = Ok tpl ∧
     (∀ x, x ∈ FString.fields tpl →
           is_Some (FString.lookup_name (Prompts.row_scope (lit "{row}")) x)) ∧
     FString.render Prompts.get_answer_template (Prompts.row_scope (lit "{row}"))
       = Ok out ∧
     FString.placeholders out = Ok [lit "row"]).
Proof.
  split.
  - eexists. split; [vm_compute; reflexivity|].
    split; apply (bool_decide_unpack _); vm_compute; exact I.
  - eexists _, _. split; [apply PromptFacts.parse_get_answer|].
    split; [|split].
    + intros x Hx. cbn [FString.fields] in Hx.
      apply list_elem_of_singleton in Hx as ->.
      rewrite PromptFacts.lookup_row. now eexists.
    + apply PromptFacts.get_answer_prompt_eq.
    + vm_compute. reflexivity.
Qed.

(** C3, amended: for a template [T] and a scope [B] that binds every
    placeholder of [T], [render T B] returns [T] with every placeholder
    replaced by its bound value, and the literal characters of [T] appear
    in the output verbatim and in order.  When, moreover, neither the
    literal text of [T] nor a bound value holds a brace, the output holds
    no brace and re-extracting its placeholders yields none. *)
Theorem render_substitutes (T : pystr) (tpl : FString.template) (B : FString.scope) :
  FString.parse T = Ok tpl →
  (∀ x, x ∈ FString.fields tpl → is_Some (FString.lookup_name B x)) →
  ∃ out,
    FString.render T B = Ok out ∧
    out = FString.substitute B tpl ∧
    FString.literal_text tpl `sublist_of` out ∧
    (FString.brace_free (FString.literal_text tpl) →
     (∀ x v, x ∈ FString.fields tpl → FString.lookup_name B x = Some v →
             FString.brace_free v) →
     FString.brace_free out ∧ FString.placeholders out = Ok []).
Proof.
  intros Hparse Hcov. exists (FString.substitute B tpl).
  split; [|split; [reflexivity|split]].
  - unfold FString.render. rewrite Hparse. py_simpl.
    now apply FStringFacts.eval_covering.
  - apply FStringFacts.literal_sublist.
  - intros Hlit Hval.
    assert (Hfree := FStringFacts.substitute_brace_free B tpl Hlit Hval).
    split; [exact Hfree|]. now apply FStringFacts.placeholders_brace_free.
Qed.

Lemma render_substitutes_witness :
  ∃ out,
    FString.render (lit "Q: {q}" ++ LF ++ lit "A:") {[ "q"%string := lit "What is 2+2?" ]}
      = Ok out ∧
    out = lit "Q: What is 2+2?" ++ LF ++ lit "A:" ∧
    FString.placeholders out = Ok [].
Proof.
  destruct (render_substitutes
              (lit "Q: {q}" ++ LF ++ lit "A:")
              [FString.Lit (lit "Q: "); FString.Field (lit "q");
               FString.Lit (LF ++ lit "A:")]
              {[ "q"%string := lit "What is 2+2?" ]})
    as (out & Hr & Hout & _ & Hfree).
  - vm_compute. reflexivity.
  - intros x Hx. cbn [FString.fields] in Hx.
    apply list_elem_of_singleton in Hx as ->.
    exists (lit "What is 2+2?"). unfold FString.lookup_name.
    change (FString.name_of (lit "q")) with "q"%string.
    apply lookup_singleton_eq.
  - exists out. split; [exact Hr|]. split.
    + rewrite Hout. vm_compute. reflexivity.
    + apply Hfree.
      * split; apply (bool_decide_unpack _); vm_compute; exact I.
      * intros x v Hx Hv. cbn [FString.fields] in Hx.
        apply list_elem_of_singleton in Hx as ->.
        unfold FString.lookup_name in Hv.
        change (FString.name_of (lit "q")) with "q"%string in Hv.
        rewrite lookup_singleton_eq in Hv. injection Hv as <-.
        split; apply (bool_decide_unpack _); vm_compute; exact I.
Defined.

(** C6: when a placeholder of the template has no binding, rendering
    raises the error that names an unbound placeholder of the template
    (the first one, from left to right); no string is returned, so no
    placeholder is dropped or filled with a default.  Python's error for
    an unbound name is [NameError]. *)
Theorem render_missing_binding (T : pystr) (tpl : FString.template)
    (B : FString.scope) (x : pystr) :
  FString.parse T = Ok tpl →
  x ∈ FString.fields tpl →
  FString.lookup_name B x = None →
  ∃ pre y post,
    FString.render T B = Raise (NameError (FString.name_of y)) ∧
    FString.fields tpl = pre ++ y :: post ∧
    (∀ z, z ∈ pre → is_Some (FString.lookup_name B z)) ∧
    FString.lookup_name B y = None.
Proof.
  intros Hparse Hx Hnone.
  destruct (FStringFacts.eval_unbound B tpl x Hx Hnone)
    as (pre & y & post & Hf & Hpre & Hy & He).
  exists pre, y, post. split; [|auto].
  unfold FString.render. rewrite Hparse. exact He.
Qed.

Lemma render_missing_binding_witness :
  FString.render Prompts.closed_domain_template {[ "context"%string := lit "c" ]}
  = Raise (NameError "question").
Proof.
  destruct (render_missing_binding
              Prompts.closed_domain_template
              ltac:(let t := eval vm_compute in
                      (match FString.parse Prompts.closed_domain_template with
                       | Ok tpl => tpl | Raise _ => [] end) in exact t)
              {[ "context"%string := lit "c" ]}
              (lit "question"))
    as (pre & y & post & Hr & Hf & Hpre & Hy).
  - vm_compute. reflexivity.
  - apply (bool_decide_unpack _). vm_compute. exact I.
  - unfold FString.lookup_name.
    change (FString.name_of (lit "question")) with "question"%string.
    now apply lookup_singleton_ne.
  - rewrite Hr. f_equal. f_equal.
    cbn [FString.fields] in Hf.
    destruct pre as [|z pre]; injection Hf as <- Hf.
    + unfold FString.lookup_name in Hy.
      change (FString.name_of (lit "context")) with "context"%string in Hy.
      now rewrite lookup_singleton_eq in Hy.
    + destruct pre as [|z pre]; injection Hf as <- Hf; [reflexivity|].
      destruct pre; discriminate.
Defined.

(** C10: the prompt built for an input [s] is the fixed text before the
    field, then [s] itself, unchanged, then the fixed text after the
    field; and that prompt is what is sent to the model. *)
Theorem prompt_contains_input {World : Type}
    (predict : World -> pystr -> pyresult pystr * World)
    (s : pystr) (st : run World) :
  Prompts.get_sentiment_prompt s
    = Ok (Prompts.sentiment_before ++ s ++ Prompts.sentiment_after) ∧
  Prompts.get_answer_prompt s
    = Ok (Prompts.answer_before ++ s ++ Prompts.answer_after) ∧
  prompts_sent (get_sentiment predict s st).2
    = prompts_sent st
      ++ [Prompts.sentiment_before ++ s ++ Prompts.sentiment_after] ∧
  prompts_sent (get_answer predict s st).2
    = prompts_sent st ++ [Prompts.answer_before ++ s ++ Prompts.answer_after].
Proof.
  split; [apply PromptFacts.get_sentiment_prompt_eq|].
  split; [apply PromptFacts.get_answer_prompt_eq|].
  split.
  - unfold get_sentiment, lift, call_predict, prompts_sent, mbind, cell_bind.
    rewrite PromptFacts.get_sentiment_prompt_eq.
    destruct (predict (world st) _) as [[r|e] w']; cbn; now rewrite map_app.
  - unfold get_answer, lift, call_predict, prompts_sent, mbind, cell_bind.
    rewrite PromptFacts.get_answer_prompt_eq.
    destruct (predict (world st) _) as [[r|e] w']; cbn; now rewrite map_app.
Qed.

(** ** Rounding *)

Module RoundFacts.
Import Fuzz.

Lemma floor_bounds (q : Q) :
  (inject_Z (Qfloor q) <= q)%Q ∧ (q < inject_Z (Qfloor q) + 1)%Q.
Proof.
  split; [apply Qfloor_le|].
  generalize (Qlt_floor q). rewrite inject_Z_plus. auto.
Qed.

Lemma py_round_cases (q : Q) :
  let f := Qfloor q in
  ((q - inject_Z f < 1 # 2)%Q ∧ py_round q = f) ∨
  ((q - inject_Z f == 1 # 2)%Q ∧ py_round q = if Z.even f then f else f + 1) ∨
  ((1 # 2 < q - inject_Z f)%Q ∧ py_round q = f + 1).
Proof.
  intros f. unfold py_round. fold f.
  destruct (q - inject_Z f ?= 1 # 2)%Q eqn:Hc.
  - right; left. split; [now apply Qeq_alt|reflexivity].
  - left. split; [now apply Qlt_alt|reflexivity].
  - right; right. split; [now apply Qgt_alt|reflexivity].
Qed.

Lemma py_round_mono (q q' : Q) : (q <= q')%Q → py_round q <= py_round q'.
Proof.
  intros Hle.
  assert (Hf := Qfloor_resp_le q q' Hle).
  destruct (floor_bounds q) as [Hq1 Hq2], (floor_bounds q') as [Hq1' Hq2'].
  destruct (Z.eq_dec (Qfloor q) (Qfloor q')) as [Heq|Hne].
  - destruct (py_round_cases q) as [[Hd ->]|[[Hd ->]|[Hd ->]]];
      destruct (py_round_cases q') as [[Hd' ->]|[[Hd' ->]|[Hd' ->]]];
      rewrite <- ?Heq in *; try destruct (Z.even (Qfloor q)); try lia; exfalso; lra.
  - assert (Hlt : Qfloor q + 1 <= Qfloor q') by lia.
    destruct (py_round_cases q) as [[_ ->]|[[_ ->]|[_ ->]]];
      destruct (py_round_cases q') as [[_ ->]|[[_ ->]|[_ ->]]];
      repeat destruct (Z.even _); lia.
Qed.

Lemma py_round_Z (z : Z) : py_round (inject_Z z) = z.
Proof.
  destruct (py_round_cases (inject_Z z)) as [[Hd ->]|[[Hd _]|[Hd _]]];
    rewrite ?Qfloor_Z in *; [reflexivity|exfalso; lra|exfalso; lra].
Qed.

Lemma py_round_comp (q q' : Q) : (q == q')%Q → py_round q = py_round q'.
Proof.
  intros Heq. unfold py_round. rewrite (Qfloor_comp q q' Heq).
  assert (Hc : ((q - inject_Z (Qfloor q') ?= 1 # 2) = (q' - inject_Z (Qfloor q') ?= 1 # 2))%Q).
  { apply Qcompare_comp; [now rewrite Heq|reflexivity]. }
  now rewrite Hc.
Qed.

Lemma py_round_range (q : Q) : (0 <= q <= 100)%Q → 0 <= py_round q <= 100.
Proof.
  intros [H0 H100].
  assert (Ha := py_round_mono (inject_Z 0) q H0).
  assert (Hb := py_round_mono q (inject_Z 100) H100).
  rewrite py_round_Z in Ha, Hb. lia.
Qed.

End RoundFacts.

(** ** Floats *)

Module Float64Facts.
Import Float64.

Lemma nearest_even_mono (q q' : Q) : (q <= q')%Q -> nearest_even q <= nearest_even q'.
Proof. exact (RoundFacts.py_round_mono q q'). Qed.

Lemma nearest_even_Z (z : Z) : nearest_even (inject_Z z) = z.
Proof. exact (RoundFacts.py_round_Z z). Qed.

Lemma two_pos (e : Z) : (0 < 2 ^ e)%Q.
Proof. apply Qpower_0_lt. reflexivity. Qed.

Lemma two_plus (a b : Z) : (2 ^ (a + b) == 2 ^ a * 2 ^ b)%Q.
Proof. apply Qpower_plus. discriminate. Qed.

Lemma two_le (a b : Z) : a <= b -> (2 ^ a <= 2 ^ b)%Q.
Proof. intros H. apply Qpower_le_compat_l; [exact H|discriminate]. Qed.

Lemma two_inject (a : Z) : 0 <= a -> (inject_Z (2 ^ a) == 2 ^ a)%Q.
Proof. intros H. apply (Zpower_Qpower 2 a H). Qed.

(** [2^(a - b)] against a fraction. *)
Lemma two_minus (a b : Z) : 0 <= a -> 0 <= b ->
  (2 ^ (a - b) == Qmake (2 ^ a) (Z.to_pos (2 ^ b)))%Q.
Proof.
  intros Ha Hb.
  rewrite Qpower_minus by discriminate.
  rewrite <- !two_inject by assumption.
  rewrite Qmake_Qdiv. rewrite Z2Pos.id by (apply Z.pow_pos_nonneg; lia).
  reflexivity.
Qed.

Lemma binade_spec (q : Q) :
  (0 < q)%Q -> (2 ^ binade q <= q)%Q /\ (q < 2 ^ (binade q + 1))%Q.
Proof.
  intros Hq. destruct q as [n d]. unfold binade; cbn [Qnum Qden].
  assert (Hn : 0 < n) by (unfold Qlt in Hq; cbn in Hq; lia).
  destruct (Z.log2_spec n Hn) as [Hn1 Hn2].
  destruct (Z.log2_spec (Zpos d) (Pos2Z.is_pos d)) as [Hd1 Hd2].
  assert (Ha := Z.log2_nonneg n). assert (Hb := Z.log2_nonneg (Zpos d)).
  set (a := Z.log2 n) in *. set (b := Z.log2 (Zpos d)) in *.
  assert (Hpa : 0 < 2 ^ a) by (apply Z.pow_pos_nonneg; lia).
  assert (Hpb : 0 < 2 ^ b) by (apply Z.pow_pos_nonneg; lia).
  assert (Hsa : 2 ^ Z.succ a = 2 * 2 ^ a) by (apply Z.pow_succ_r; lia).
  assert (Hsb : 2 ^ Z.succ b = 2 * 2 ^ b) by (apply Z.pow_succ_r; lia).
  destruct (Qle_bool (2 ^ (a - b)) (n # d)) eqn:Hc.
  - apply Qle_bool_iff in Hc. split; [exact Hc|].
    replace (a - b + 1) with (Z.succ a - b) by lia.
    rewrite two_minus by lia.
    unfold Qlt; cbn [Qnum Qden]. rewrite Z2Pos.id by lia. nia.
  - assert (Hlt : (n # d < 2 ^ (a - b))%Q).
    { apply Qnot_le_lt. intros Hle. apply Qle_bool_iff in Hle. congruence. }
    replace (a - b - 1 + 1) with (a - b) by lia. split; [|exact Hlt].
    replace (a - b - 1) with (a - Z.succ b) by lia.
    rewrite two_minus by lia.
    unfold Qle; cbn [Qnum Qden]. rewrite Z2Pos.id by lia. nia.
Qed.

Lemma binade_mono (q q' : Q) :
  (0 < q)%Q -> (q <= q')%Q -> binade q <= binade q'.
Proof.
  intros Hq Hle.
  assert (Hq' : (0 < q')%Q) by (eapply Qlt_le_trans; eauto).
  destruct (binade_spec q Hq) as [H1 _]. destruct (binade_spec q' Hq') as [_ H2].
  destruct (Z_le_gt_dec (binade q) (binade q')) as [H|H]; [exact H|exfalso].
  assert (H3 := two_le (binade q' + 1) (binade q) ltac:(lia)).
  lra.
Qed.

(** The mantissa of a positive number has 53 bits. *)
Lemma mantissa_range (q : Q) :
  (0 < q)%Q ->
  2 ^ 52 <= nearest_even (q * 2 ^ (- (binade q - 52))) <= 2 ^ 53.
Proof.
  intros Hq. destruct (binade_spec q Hq) as [H1 H2].
  set (e := binade q - 52) in *.
  assert (Hpos := two_pos (- e)).
  assert (Hlo : (inject_Z (2 ^ 52) <= q * 2 ^ (- e))%Q).
  { rewrite (two_inject 52) by lia.
    replace 52 with (binade q + - e) by (unfold e; lia).
    rewrite two_plus. apply Qmult_le_compat_r; [exact H1|]. now apply Qlt_le_weak. }
  assert (Hhi : (q * 2 ^ (- e) <= inject_Z (2 ^ 53))%Q).
  { rewrite (two_inject 53) by lia.
    replace 53 with (binade q + 1 + - e) by (unfold e; lia).
    rewrite two_plus. apply Qmult_le_compat_r; [now apply Qlt_le_weak|].
    now apply Qlt_le_weak. }
  apply nearest_even_mono in Hlo, Hhi. rewrite nearest_even_Z in Hlo, Hhi. lia.
Qed.

Lemma round_positive_bounds (q : Q) :
  (0 < q)%Q ->
  (2 ^ binade q <= round_positive q)%Q /\ (round_positive q <= 2 ^ (binade q + 1))%Q.
Proof.
  intros Hq. destruct (mantissa_range q Hq) as [Hlo Hhi].
  unfold round_positive. set (e := binade q - 52) in *.
  set (m := nearest_even (q * 2 ^ (- e))) in *.
  assert (Hpos := two_pos e).
  split.
  - replace (binade q) with (52 + e) by (unfold e; lia).
    rewrite two_plus, <- (two_inject 52) by lia.
    apply Qmult_le_compat_r; [|now apply Qlt_le_weak].
    rewrite <- Zle_Qle. exact Hlo.
  - replace (binade q + 1) with (53 + e) by (unfold e; lia).
    rewrite two_plus, <- (two_inject 53) by lia.
    apply Qmult_le_compat_r; [|now apply Qlt_le_weak].
    rewrite <- Zle_Qle. exact Hhi.
Qed.

Lemma round_positive_mono (q q' : Q) :
  (0 < q)%Q -> (q <= q')%Q -> (round_positive q <= round_positive q')%Q.
Proof.
  intros Hq Hle.
  assert (Hq' : (0 < q')%Q) by (eapply Qlt_le_trans; eauto).
  assert (Hb := binade_mono q q' Hq Hle).
  destruct (Z.eq_dec (binade q) (binade q')) as [Heq|Hne].
  - unfold round_positive. rewrite <- Heq.
    set (e := binade q - 52).
    apply Qmult_le_compat_r; [|apply Qlt_le_weak, two_pos].
    rewrite <- Zle_Qle. apply nearest_even_mono.
    apply Qmult_le_compat_r; [exact Hle|apply Qlt_le_weak, two_pos].
  - destruct (round_positive_bounds q Hq) as [_ H1].
    destruct (round_positive_bounds q' Hq') as [H2 _].
    assert (H3 := two_le (binade q + 1) (binade q') ltac:(lia)).
    lra.
Qed.

Lemma round_double_comp (q q' : Q) : (q == q')%Q -> round_double q = round_double q'.
Proof. intros H. unfold round_double. now rewrite (Qred_complete q q' H). Qed.

Lemma Qnum_sign (q : Q) :
  match Qnum q with
  | Z0 => (q == 0)%Q
  | Zpos _ => (0 < q)%Q
  | Zneg _ => (q < 0)%Q
  end.
Proof.
  destruct q as [[|n|n] d]; cbn [Qnum].
  - reflexivity.
  - unfold Qlt; cbn. lia.
  - unfold Qlt; cbn. lia.
Qed.

Lemma round_double_nonneg (q : Q) : (0 <= q)%Q -> (0 <= round_double q)%Q.
Proof.
  intros Hq. unfold round_double.
  assert (Hr := Qred_correct q). assert (Hs := Qnum_sign (Qred q)).
  destruct (Qnum (Qred q)).
  - apply Qle_refl.
  - destruct (round_positive_bounds (Qred q) Hs) as [H1 _].
    assert (H2 := two_pos (binade (Qred q))). lra.
  - exfalso. lra.
Qed.

(** Rounding to the nearest double keeps the order. *)
Lemma round_double_mono (q q' : Q) :
  (0 <= q)%Q -> (q <= q')%Q -> (round_double q <= round_double q')%Q.
Proof.
  intros Hq Hle.
  assert (Hq' : (0 <= q')%Q) by lra.
  assert (Hn := round_double_nonneg q' Hq').
  unfold round_double in *.
  assert (Hr := Qred_correct q). assert (Hr' := Qred_correct q').
  assert (Hs := Qnum_sign (Qred q)). assert (Hs' := Qnum_sign (Qred q')).
  destruct (Qnum (Qred q)).
  - exact Hn.
  - destruct (Qnum (Qred q')).
    + exfalso. lra.
    + apply round_positive_mono; [exact Hs|]. lra.
    + exfalso. lra.
  - exfalso. lra.
Qed.

Lemma round_double_1 : (round_double 1 == 1)%Q.
Proof. vm_compute. reflexivity. Qed.

Lemma round_double_100 : (round_double 100 == 100)%Q.
Proof. vm_compute. reflexivity. Qed.

(** Between 0 and 1 before the rounding, between 0 and 1 after it. *)
Lemma round_double_unit (q : Q) :
  (0 <= q <= 1)%Q → (0 <= round_double q <= 1)%Q.
Proof.
  intros [H0 H1]. split; [now apply round_double_nonneg|].
  pose proof (round_double_mono q 1 H0 H1) as H.
  pose proof round_double_1 as E. lra.
Qed.

Lemma fmul_100_range (r : Q) :
  (0 <= r <= 1)%Q → (0 <= fmul 100 r <= 100)%Q.
Proof.
  intros [H0 H1]. unfold fmul. split; [apply round_double_nonneg; lra|].
  assert (H : (round_double (100 * r) <= round_double 100)%Q)
    by (apply round_double_mono; lra).
  pose proof round_double_100 as E. lra.
Qed.

Lemma fmul_100_mono (r r' : Q) :
  (0 <= r)%Q → (r <= r')%Q → (fmul 100 r <= fmul 100 r')%Q.
Proof. intros H0 Hle. unfold fmul. apply round_double_mono; lra. Qed.


(** The literal [.995] is the double [8962163258467287 / 2^53], a little
    below 199/200. *)
Lemma literal_995 :
  literal (995 # 1000) = (8962163258467287 # 9007199254740992)%Q.
Proof. vm_compute. reflexivity. Qed.


End Float64Facts.

(** ** From a ratio to a score *)

Module RatioFacts.
Import Float64 Fuzz RoundFacts Float64Facts.

Lemma ratio_score_low (r : Q) :
  Qle_bool r (literal (995 # 1000)) = true →
  ratio_score r = intr (fmul 100 r).
Proof. intros Hb. unfold ratio_score. now rewrite Hb. Qed.

Lemma ratio_score_range (r : Q) : (0 <= r <= 1)%Q → 0 <= ratio_score r <= 100.
Proof.
  intros Hr. unfold ratio_score. destruct (negb _); [lia|].
  apply py_round_range. now apply fmul_100_range.
Qed.

Lemma ratio_score_mono (r r' : Q) :
  (0 <= r)%Q → (r <= r')%Q → (r' <= 1)%Q → ratio_score r <= ratio_score r'.
Proof.
  intros H0 Hle H1.
  assert (Hr : 0 <= ratio_score r <= 100) by (apply ratio_score_range; lra).
  unfold ratio_score at 2.
  destruct (Qle_bool r' (literal (995 # 1000))) eqn:Hb'; cbn [negb]; [|lia].
  apply Qle_bool_iff in Hb'.
  rewrite ratio_score_low by (apply Qle_bool_iff; lra).
  apply py_round_mono. now apply fmul_100_mono.
Qed.

Lemma ratio_score_comp (r r' : Q) : (r == r')%Q → ratio_score r = ratio_score r'.
Proof.
  intros Heq. unfold ratio_score.
  assert (Hb : Qle_bool r (literal (995 # 1000)) = Qle_bool r' (literal (995 # 1000))).
  { destruct (Qle_bool r' _) eqn:Hb'.
    - apply Qle_bool_iff. apply Qle_bool_iff in Hb'. lra.
    - destruct (Qle_bool r _) eqn:Hb0; [|reflexivity].
      apply Qle_bool_iff in Hb0.
      assert (Hle : (r' <= literal (995 # 1000))%Q) by lra.
      apply Qle_bool_iff in Hle. congruence. }
  rewrite Hb. destruct (negb _); [reflexivity|].
  apply py_round_comp. unfold fmul.
  rewrite (round_double_comp (100 * r) (100 * r')); [reflexivity|].
  now rewrite Heq.
Qed.


Lemma ratio_score_zero (r : Q) : (r == 0)%Q → ratio_score r = 0.
Proof.
  intros Heq. rewrite (ratio_score_comp r 0 Heq). vm_compute. reflexivity.
Qed.




End RatioFacts.

(** ** The matcher *)

Section MatcherFacts.
Import Fuzz RoundFacts Float64Facts RatioFacts.

Context {A : Type} `{EqDecision A}.
Variable inner_blocks : list A -> list A -> list block.

Lemma lcs_nil_r (a : list A) : lcs a [] = O.
Proof. destruct a; reflexivity. Qed.

Lemma lcs_cons (x y : A) (a b : list A) :
  lcs (x :: a) (y :: b)
  = if decide (x = y) then S (lcs a b)
    else Nat.max (lcs a (y :: b)) (lcs (x :: a) b).
Proof. reflexivity. Qed.

Lemma lcs_le_l (a b : list A) : (lcs a b <= length a)%nat.
Proof.
  revert b. induction a as [|x a IHa]; intros b; [cbn; lia|].
  induction b as [|y b IHb]; [rewrite lcs_nil_r; lia|].
  rewrite lcs_cons. destruct (decide (x = y)).
  - specialize (IHa b). cbn [length]. lia.
  - specialize (IHa (y :: b)). cbn [length] in *. lia.
Qed.

Lemma lcs_le_r (a b : list A) : (lcs a b <= length b)%nat.
Proof.
  revert b. induction a as [|x a IHa]; intros b; [cbn; lia|].
  induction b as [|y b IHb]; [rewrite lcs_nil_r; lia|].
  rewrite lcs_cons. destruct (decide (x = y)).
  - specialize (IHa b). cbn [length]. lia.
  - specialize (IHa (y :: b)). cbn [length] in *. lia.
Qed.




Lemma lcs_refl (a : list A) : lcs a a = length a.
Proof.
  induction a as [|x a IH]; [reflexivity|].
  rewrite lcs_cons. destruct (decide (x = x)); [|congruence].
  cbn [length]. now rewrite IH.
Qed.

Lemma lcs_disjoint (a b : list A) :
  (∀ c, c ∈ a → c ∉ b) → lcs a b = O.
Proof.
  revert b. induction a as [|x a IHa]; intros b Hd; [reflexivity|].
  induction b as [|y b IHb]; [apply lcs_nil_r|].
  rewrite lcs_cons. destruct (decide (x = y)) as [->|_].
  - exfalso. apply (Hd y); left.
  - rewrite IHa, IHb; [reflexivity| |].
    + intros c Hc Hb. apply (Hd c Hc). now right.
    + intros c Hc. apply Hd. now right.
Qed.

Lemma lcs_full (a b : list A) :
  lcs a b = length a → length a = length b → a = b.
Proof.
  revert b. induction a as [|x a IH]; intros [|y b] Hl Hlen; try discriminate;
    [reflexivity|].
  rewrite lcs_cons in Hl. cbn [length] in *.
  destruct (decide (x = y)) as [->|_].
  - f_equal. apply IH; lia.
  - assert (H1 := lcs_le_l a (y :: b)). assert (H2 := lcs_le_r (x :: a) b). lia.
Qed.

(** One more character on either side adds at most one match and
    loses none. *)
Lemma lcs_step_l (n : nat) : ∀ a b : list A, (length a + length b <= n)%nat →
  (∀ x, (lcs a b <= lcs (x :: a) b)%nat) ∧
  (∀ y, (lcs a (y :: b) <= S (lcs a b))%nat).
Proof.
  induction n as [|n IH]; intros a b Hn.
  - destruct a, b; cbn [length] in Hn; try lia. split; intros; cbn; lia.
  - split.
    + intros x. destruct b as [|z b]; [rewrite !lcs_nil_r; lia|].
      rewrite (lcs_cons x z). destruct (decide (x = z)); [|lia].
      apply (IH a b). cbn [length] in Hn. lia.
    + intros y. destruct a as [|x a]; [cbn; lia|].
      assert (Hsub : (length a + length b <= n)%nat) by (cbn [length] in Hn; lia).
      destruct (IH a b Hsub) as [H2 H3].
      rewrite (lcs_cons x y). specialize (H2 x). specialize (H3 y).
      destruct (decide (x = y)); lia.
Qed.

Lemma lcs_step_r (n : nat) : ∀ a b : list A, (length a + length b <= n)%nat →
  (∀ y, (lcs a b <= lcs a (y :: b))%nat) ∧
  (∀ x, (lcs (x :: a) b <= S (lcs a b))%nat).
Proof.
  induction n as [|n IH]; intros a b Hn.
  - destruct a, b; cbn [length] in Hn; try lia. split; intros; cbn; lia.
  - split.
    + intros y. destruct a as [|z a]; [cbn; lia|].
      rewrite (lcs_cons z y). destruct (decide (z = y)); [|lia].
      apply (IH a b). cbn [length] in Hn. lia.
    + intros x. destruct b as [|y b]; [rewrite !lcs_nil_r; lia|].
      assert (Hsub : (length a + length b <= n)%nat) by (cbn [length] in Hn; lia).
      destruct (IH a b Hsub) as [H1 H4].
      rewrite (lcs_cons x y). specialize (H1 y). specialize (H4 x).
      destruct (decide (x = y)); lia.
Qed.

Lemma distance_nil_r (a : list A) : distance a [] = length a.
Proof. destruct a; reflexivity. Qed.

Lemma distance_cons (x y : A) (a b : list A) :
  distance (x :: a) (y :: b)
  = Nat.min (Nat.min (S (distance a (y :: b))) (S (distance (x :: a) b)))
            ((if decide (x = y) then 0 else 2) + distance a b).
Proof. reflexivity. Qed.

(** The distance counts the characters left unmatched on both sides. *)
Lemma distance_lcs (a b : list A) :
  (distance a b + 2 * lcs a b = length a + length b)%nat.
Proof.
  revert b. induction a as [|x a IHa]; intros b; [cbn; lia|].
  induction b as [|y b IHb]; [rewrite distance_nil_r, lcs_nil_r; cbn [length]; lia|].
  rewrite distance_cons, lcs_cons.
  assert (H1 := IHa (y :: b)). assert (H3 := IHa b).
  destruct (lcs_step_l _ a b (le_n _)) as [Hl2 Hl3].
  destruct (lcs_step_r _ a b (le_n _)) as [Hr1 Hr4].
  specialize (Hl2 x). specialize (Hl3 y). specialize (Hr1 y). specialize (Hr4 x).
  cbn [length] in *.
  destruct (decide (x = y)); lia.
Qed.

Lemma ratio_lcs (a b : list A) :
  len a + len b ≠ 0 →
  ratio a b = Qmake (2 * Z.of_nat (lcs a b)) (Z.to_pos (len a + len b)).
Proof.
  intros Hne. unfold ratio.
  destruct (Z.eqb_spec (len a + len b) 0) as [H0|_]; [contradiction|].
  f_equal. assert (Hd := distance_lcs a b). unfold len. lia.
Qed.

Lemma ratio_range (a b : list A) : (0 <= ratio a b <= 1)%Q.
Proof.
  destruct (Z.eq_dec (len a + len b) 0) as [H0|Hne].
  - unfold ratio. rewrite H0. cbn. split; [lra|apply Qle_refl].
  - rewrite (ratio_lcs a b Hne). unfold len in *.
    assert (Hl := lcs_le_l a b). assert (Hr := lcs_le_r a b).
    unfold Qle; cbn [Qnum Qden]. rewrite Z2Pos.id by lia. lia.
Qed.

Lemma ratio_refl (a : list A) : (ratio a a == 1)%Q.
Proof.
  destruct (Z.eq_dec (len a + len a) 0) as [H0|Hne].
  - unfold ratio. rewrite H0. reflexivity.
  - rewrite (ratio_lcs a a Hne). unfold len in *.
    unfold Qeq; cbn [Qnum Qden]. rewrite Z2Pos.id by lia. rewrite lcs_refl. lia.
Qed.

Lemma float_ratio_range (a b : list A) : (0 <= float_ratio a b <= 1)%Q.
Proof. apply round_double_unit, ratio_range. Qed.

Lemma float_ratio_refl (a : list A) : (float_ratio a a == 1)%Q.
Proof.
  unfold float_ratio. rewrite (round_double_comp _ 1 (ratio_refl a)).
  apply round_double_1.
Qed.

(** The float ratio in terms of matching characters. *)
Lemma float_ratio_lcs (shorter w : list A) :
  shorter ≠ [] →
  float_ratio shorter w
  = Float64.round_double (Qmake (2 * Z.of_nat (lcs shorter w))
                                (Z.to_pos (len shorter + len w))).
Proof.
  intros Hne. unfold float_ratio.
  assert (Hpos : 0 < len shorter + len w).
  { unfold len. destruct shorter; [congruence|]. cbn [length]. lia. }
  now rewrite ratio_lcs by lia.
Qed.

Lemma window_score_range (shorter w : list A) :
  0 <= window_score shorter w <= 100.
Proof. apply ratio_score_range, float_ratio_range. Qed.




(** [max] returns an item of the list that no item exceeds. *)
Lemma max_from_spec (rest : list Q) : ∀ best,
  max_from best rest ∈ best :: rest ∧
  ∀ r, r ∈ best :: rest → (r <= max_from best rest)%Q.
Proof.
  induction rest as [|r0 rest IH]; intros best; cbn [max_from].
  - split; [left|]. intros r Hr. apply list_elem_of_singleton in Hr as ->.
    apply Qle_refl.
  - destruct (Qle_bool r0 best) eqn:Hb.
    + apply Qle_bool_iff in Hb. destruct (IH best) as [Hin Hmax]. split.
      * apply elem_of_cons in Hin as [->|Hin]; [left|right; now right].
      * intros r Hr.
        assert (Hbest := Hmax best ltac:(left)).
        apply elem_of_cons in Hr as [->|Hr]; [exact Hbest|].
        apply elem_of_cons in Hr as [->|Hr]; [lra|]. apply Hmax. now right.
    + assert (Hlt : (best < r0)%Q).
      { apply Qnot_le_lt. intros Hle. apply Qle_bool_iff in Hle. congruence. }
      destruct (IH r0) as [Hin Hmax]. split.
      * now right.
      * intros r Hr.
        assert (Hr0 := Hmax r0 ltac:(left)).
        apply elem_of_cons in Hr as [->|Hr]; [lra|]. now apply Hmax.
Qed.

(** The loop over the blocks returns the score of one of the ratios it
    has seen, and none of them scores higher.  The ratios it has kept
    are those that did not exceed [.995]. *)
Lemma best_block_spec (shorter longer : list A) (blocks : list block) :
  ∀ scores,
    (∀ r, r ∈ scores →
          (0 <= r <= 1)%Q ∧ Qle_bool r (Float64.literal (995 # 1000)) = true) →
    scores ++ map (block_ratio shorter longer) blocks ≠ [] →
    ∃ n r,
      best_block shorter longer blocks scores = Ok n ∧
      r ∈ scores ++ map (block_ratio shorter longer) blocks ∧
      n = ratio_score r ∧
      ∀ r', r' ∈ scores ++ map (block_ratio shorter longer) blocks →
            ratio_score r' <= n.
Proof.
  induction blocks as [|blk blocks IH]; intros scores Hkept Hne.
  - cbn [map] in *. rewrite app_nil_r in *.
    destruct scores as [|r0 rest]; [congruence|].
    destruct (max_from_spec rest r0) as [Hin Hmax].
    exists (intr (Float64.fmul 100 (max_from r0 rest))), (max_from r0 rest).
    split; [reflexivity|]. split; [exact Hin|].
    split; [symmetry; apply ratio_score_low, Hkept, Hin|].
    intros r' Hr'. rewrite ratio_score_low by apply Hkept, Hr'.
    apply py_round_mono, fmul_100_mono; [apply Hkept, Hr'|now apply Hmax].
  - cbn [best_block map].
    fold (block_ratio shorter longer blk).
    assert (Hblk := float_ratio_range shorter (long_substr shorter longer blk)).
    fold (block_ratio shorter longer blk) in Hblk.
    destruct (Qle_bool (block_ratio shorter longer blk)
                (Float64.literal (995 # 1000))) eqn:Hb; cbn [negb].
    + destruct (IH (scores ++ [block_ratio shorter longer blk]))
        as (n & r & He & Hin & Hn & Hmax).
      * intros r Hr. apply elem_of_app in Hr as [Hr|Hr]; [now apply Hkept|].
        apply list_elem_of_singleton in Hr as ->. now split.
      * destruct scores; discriminate.
      * rewrite <- app_assoc in Hin, Hmax. exists n, r. auto.
    + exists 100, (block_ratio shorter longer blk).
      split; [reflexivity|]. split; [apply elem_of_app; right; left|].
      split; [unfold ratio_score; now rewrite Hb|].
      intros r' Hr'. apply ratio_score_range.
      apply elem_of_app in Hr' as [Hr'|Hr']; [now apply Hkept|].
      apply elem_of_cons in Hr' as [->|Hr']; [exact Hblk|].
      apply list_elem_of_fmap in Hr' as (b & -> & _). apply float_ratio_range.
Qed.

(** A block that aligns the shorter string with an equal window ends
    the loop with 100, whatever blocks come first. *)
Lemma best_block_perfect (shorter longer : list A) (blk : block) (after : list block) :
  long_substr shorter longer blk = shorter →
  ∀ before scores,
    best_block shorter longer (before ++ blk :: after) scores = Ok 100.
Proof.
  intros Hw. induction before as [|b before IH]; intros scores.
  - cbn [app best_block]. rewrite Hw.
    assert (Hr := float_ratio_refl shorter).
    destruct (Qle_bool _ _) eqn:Hb; [|reflexivity].
    apply Qle_bool_iff in Hb. rewrite literal_995 in Hb. exfalso. lra.
  - cbn [app best_block].
    destruct (negb _); [reflexivity|apply IH].
Qed.

(** A window is a contiguous piece of the longer string, at most as long
    as the shorter one. *)
Lemma long_substr_window (shorter longer : list A) (blk : block) :
  ∃ before after,
    longer = before ++ long_substr shorter longer blk ++ after ∧
    (length (long_substr shorter longer blk) <= length shorter)%nat.
Proof.
  destruct blk as [[b0 b1] sz]. unfold long_substr, slice.
  set (long_start := if 0 <? b1 - b0 then b1 - b0 else 0).
  assert (Hstart : 0 <= long_start).
  { unfold long_start. destruct (Z.ltb_spec 0 (b1 - b0)); lia. }
  exists (take (Z.to_nat long_start) longer).
  eexists (drop _ (drop (Z.to_nat long_start) longer)). split.
  - now rewrite take_drop, take_drop.
  - rewrite length_take. unfold len. lia.
Qed.

(** The closing block aligns a string with the end of the longer one. *)
Lemma sentinel_suffix (pre s : list A) :
  long_substr s (pre ++ s) (len s, len (pre ++ s), 0) = s.
Proof.
  unfold long_substr, slice, len. rewrite length_app.
  destruct (Z.ltb_spec 0 (Z.of_nat (length pre + length s) - Z.of_nat (length s)))
    as [Hpos|Hzero].
  - replace (Z.to_nat (Z.of_nat (length pre + length s) - Z.of_nat (length s)))
      with (length pre) by lia.
    replace (Z.to_nat (Z.of_nat (length pre + length s) - Z.of_nat (length s)
                       + Z.of_nat (length s)) - length pre)%nat
      with (length s) by lia.
    rewrite drop_app_length. apply firstn_all.
  - assert (Hpre : pre = []) by (destruct pre; [reflexivity|cbn [length] in Hzero; lia]).
    subst pre. cbn [app].
    replace (Z.to_nat (0 + Z.of_nat (length s)) - Z.to_nat 0)%nat
      with (length s) by lia.
    change (Z.to_nat 0) with O. rewrite drop_0. apply firstn_all.
Qed.


End MatcherFacts.

(** ** Scores *)

Section ScoreTheorems.
Import Fuzz RoundFacts.

Context {A : Type} `{EqDecision A}.
Variable inner_blocks : list A -> list A -> list block.



(** What the body of [partial_ratio] returns: the score of one of the
    windows, the best of them. *)
Lemma partial_ratio_body_spec (X Y : list A) :
  ∃ n blk,
    partial_ratio_body inner_blocks X Y = Ok n ∧
    blk ∈ get_matching_blocks inner_blocks (shorter_of X Y) (longer_of X Y) ∧
    n = window_score (shorter_of X Y)
          (long_substr (shorter_of X Y) (longer_of X Y) blk) ∧
    0 <= n <= 100 ∧
    ∀ W, W ∈ candidate_windows inner_blocks (shorter_of X Y) (longer_of X Y) →
         window_score (shorter_of X Y) W <= n.
Proof.
  unfold partial_ratio_body.
  set (shorter := shorter_of X Y). set (longer := longer_of X Y).
  destruct (best_block_spec shorter longer
              (get_matching_blocks inner_blocks shorter longer) [])
    as (n & r & He & Hin & Hn & Hmax).
  - intros r Hr. inversion Hr.
  - unfold get_matching_blocks. rewrite map_app. cbn.
    intros Hnil. apply app_eq_nil in Hnil as [_ Hnil]. discriminate.
  - cbn [app] in Hin, Hmax. apply list_elem_of_fmap in Hin as (blk & -> & Hblk).
    exists n, blk. split; [exact He|]. split; [exact Hblk|].
    split; [exact Hn|]. split; [rewrite Hn; apply window_score_range|].
    intros W HW. unfold candidate_windows in HW.
    apply list_elem_of_fmap in HW as (b & -> & Hb).
    apply Hmax. apply list_elem_of_fmap. now exists b.
Qed.

Lemma score_unfold (X Y : list A) :
  score inner_blocks X Y
  = if decide (X = Y) then Ok 100
    else if (len X =? 0) || (len Y =? 0) then Ok 0
    else partial_ratio_body inner_blocks X Y.
Proof. reflexivity. Qed.

Lemma score_total (X Y : list A) :
  ∃ n, score inner_blocks X Y = Ok n ∧ 0 <= n <= 100.
Proof.
  rewrite score_unfold.
  destruct (decide (X = Y)) as [_|_]; [exists 100; split; [reflexivity|lia]|].
  destruct (_ || _); [exists 0; split; [reflexivity|lia]|].
  destruct (partial_ratio_body_spec X Y) as (m & _ & Hm & _ & _ & Hr & _).
  now exists m.
Qed.

Lemma len_eq_0 (s : list A) : (len s =? 0) = true ↔ s = [].
Proof.
  unfold len. destruct s; cbn [length]; split; intros Hs;
    try reflexivity; discriminate.
Qed.


(** C4: a string scores 100 against itself, two empty strings score
    100, and an empty string scores 0 against a non-empty one, in either
    order. *)
Theorem score_identical_and_empty (X Y : list A) (c : A) :
  score inner_blocks X X = Ok 100 ∧
  score inner_blocks [] [] = Ok 100 ∧
  score inner_blocks [] (c :: Y) = Ok 0 ∧
  score inner_blocks (c :: Y) [] = Ok 0.
Proof.
  split; [|repeat split].
  unfold score, partial_ratio, check_for_none, check_for_equivalence.
  destruct (decide (X = X)); [reflexivity|congruence].
Qed.

End ScoreTheorems.

Section NotebookScores.
Import Fuzz.

Variable inner_blocks : pystr -> pystr -> list block.

(** The closing block aligns [Pacific Ocean] with the last thirteen
    characters of [The Pacific Ocean], which are equal to it. *)
Lemma pacific_ocean_score :
  score inner_blocks (lit "The Pacific Ocean") (lit "Pacific Ocean") = Ok 100.
Proof.
  unfold score, partial_ratio, check_for_none, check_for_equivalence.
  destruct (decide _) as [Heq|_]; [vm_compute in Heq; discriminate Heq|].
  change (check_empty_string (partial_ratio_body inner_blocks)
            (lit "The Pacific Ocean") (lit "Pacific Ocean"))
    with (partial_ratio_body inner_blocks
            (lit "The Pacific Ocean") (lit "Pacific Ocean")).
  unfold partial_ratio_body.
  change (shorter_of (lit "The Pacific Ocean") (lit "Pacific Ocean"))
    with (lit "Pacific Ocean").
  change (longer_of (lit "The Pacific Ocean") (lit "Pacific Ocean"))
    with (lit "The Pacific Ocean").
  unfold get_matching_blocks. apply best_block_perfect.
  vm_compute. reflexivity.
Qed.



(** C5: the two documented rows.  Equal strings score 100; for
    [The Pacific Ocean] against [Pacific Ocean] the score is 100, hence
    at least 90. *)
Theorem documented_scores :
  score inner_blocks (lit "World Wide Web") (lit "World Wide Web") = Ok 100 ∧
  ∃ n, score inner_blocks (lit "The Pacific Ocean") (lit "Pacific Ocean") = Ok n ∧
       90 <= n ∧ n = 100.
Proof.
  split; [reflexivity|].
  exists 100. split; [apply pacific_ocean_score|lia].
Qed.

End NotebookScores.




(** ** Cells that call the model *)

Section CellFacts.

Context {World : Type}.
Variable predict : World -> pystr -> pyresult pystr * World.
Hypothesis predict_responds : responsive predict.

Lemma call_predict_ok (prompt : pystr) (st : run World) :
  ∃ r st',
    call_predict predict prompt st = (Ok r, st') ∧
    calls st' = calls st ++ [logged prompt r] ∧
    stdout st' = stdout st.
Proof.
  destruct (predict_responds (world st) prompt) as (r & w' & Hp).
  eexists r, _. unfold call_predict. rewrite Hp. cbn. auto.
Qed.

Lemma get_answer_ok (row : pystr) (st : run World) :
  ∃ y st',
    get_answer predict row st = (Ok y, st') ∧
    calls st' = calls st
      ++ [logged (Prompts.answer_before ++ row ++ Prompts.answer_after) y].
Proof.
  unfold get_answer, lift, mbind, cell_bind.
  rewrite PromptFacts.get_answer_prompt_eq.
  destruct (call_predict_ok (Prompts.answer_before ++ row ++ Prompts.answer_after) st)
    as (r & st' & Hc & Hcalls & _).
  exists r, st'. now rewrite Hc.
Qed.

Lemma get_sentiment_ok (row : pystr) (st : run World) :
  ∃ y st',
    get_sentiment predict row st = (Ok y, st') ∧
    calls st' = calls st
      ++ [logged (Prompts.sentiment_before ++ row ++ Prompts.sentiment_after) y].
Proof.
  unfold get_sentiment, lift, mbind, cell_bind.
  rewrite PromptFacts.get_sentiment_prompt_eq.
  destruct (call_predict_ok (Prompts.sentiment_before ++ row ++ Prompts.sentiment_after) st)
    as (r & st' & Hc & Hcalls & _).
  exists r, st'. rewrite Hc. cbn. auto.
Qed.

(** [Series.apply] over a function that makes one call per value. *)
Lemma series_apply_ok (func : pystr -> Cell World pystr) (prompt_of : pystr -> pystr) :
  (∀ x st, ∃ y st', func x st = (Ok y, st') ∧
                    calls st' = calls st ++ [logged (prompt_of x) y]) →
  ∀ xs st, ∃ ys st',
    series_apply func xs st = (Ok ys, st') ∧
    length ys = length xs ∧
    calls st' = calls st ++ zip_with logged (map prompt_of xs) ys.
Proof.
  intros Hfunc. induction xs as [|x xs IH]; intros st.
  - exists [], st. cbn. now rewrite app_nil_r.
  - destruct (Hfunc x st) as (y & st1 & Hy & Hc1).
    destruct (IH st1) as (ys & st2 & Hys & Hlen & Hc2).
    exists (y :: ys), st2. cbn [series_apply]. unfold mbind, cell_bind.
    rewrite Hy. fold (@cell_bind World). unfold mbind in Hys. rewrite Hys.
    cbn. split; [reflexivity|]. split; [now rewrite Hlen|].
    rewrite Hc2, Hc1, <- app_assoc. reflexivity.
Qed.


(** A column assigned from [apply]: one record per input row, in order. *)
Lemma applied_column_lookup {Row Rec : Type} (mk : Row -> pystr -> Rec)
    (input : Row -> pystr) (prompt_of : pystr -> pystr)
    (df : list Row) (ys : list pystr) (st st' : run World) :
  length ys = length (map input df) →
  calls st' = calls st ++ zip_with logged (map prompt_of (map input df)) ys →
  ∀ k row, df !! k = Some row →
    ∃ y, zip_with mk df ys !! k = Some (mk row y) ∧
         calls st' !! (length (calls st) + k)%nat
           = Some (logged (prompt_of (input row)) y).
Proof.
  intros Hlen Hcalls k row Hrow. rewrite length_map in Hlen.
  destruct (lookup_lt_is_Some_2 ys k) as [y Hy].
  { rewrite Hlen. eapply lookup_lt_Some. exact Hrow. }
  exists y. split.
  - rewrite lookup_zip_with, Hrow. cbn. now rewrite Hy.
  - rewrite Hcalls, lookup_app_r by lia.
    replace (length (calls st) + k - length (calls st))%nat with k by lia.
    rewrite lookup_zip_with, !list_lookup_fmap, Hrow. cbn. now rewrite Hy.
Qed.

(** C8: the predictions come back in input order.  The data frame
    after the assignment has as many records as before; the record at
    each position carries the input row of that position, and its
    prediction is the answer to the call made for that row, which is the
    call at that position among the calls of the cell. *)
Theorem predictions_follow_input_order
    (qa_data_df : list qa_row) (review_data_df : list review_row)
    (st : run World) :
  (∃ out st',
     predict_answers predict qa_data_df st = (Ok out, st') ∧
     length out = length qa_data_df ∧
     ∀ k row, qa_data_df !! k = Some row →
       ∃ y, out !! k = Some {| qa_of := row; answer_prediction := y |} ∧
            calls st' !! (length (calls st) + k)%nat
              = Some (logged (Prompts.answer_before ++ question row
                              ++ Prompts.answer_after) y)) ∧
  (∃ out st',
     predict_sentiments predict review_data_df st = (Ok out, st') ∧
     length out = length review_data_df ∧
     ∀ k row, review_data_df !! k = Some row →
       ∃ y, out !! k = Some {| review_of := row; sentiment_prediction := y |} ∧
            calls st' !! (length (calls st) + k)%nat
              = Some (logged (Prompts.sentiment_before ++ review row
                              ++ Prompts.sentiment_after) y)).
Proof.
  split.
  - destruct (series_apply_ok (get_answer predict)
                (fun row => Prompts.answer_before ++ row ++ Prompts.answer_after)
                get_answer_ok (map question qa_data_df) st)
      as (ys & st' & Hrun & Hlen & Hcalls).
    exists (zip_with Build_qa_answered qa_data_df ys), st'.
    split; [|split].
    + unfold predict_answers, mbind, cell_bind.
      unfold mbind in Hrun. rewrite Hrun. reflexivity.
    + rewrite length_zip_with, Hlen, length_map. lia.
    + exact (applied_column_lookup Build_qa_answered question _ _ _ _ _ Hlen Hcalls).
  - destruct (series_apply_ok (get_sentiment predict)
                (fun row => Prompts.sentiment_before ++ row ++ Prompts.sentiment_after)
                get_sentiment_ok (map review review_data_df) st)
      as (ys & st' & Hrun & Hlen & Hcalls).
    exists (zip_with Build_review_predicted review_data_df ys), st'.
    split; [|split].
    + unfold predict_sentiments, mbind, cell_bind.
      unfold mbind in Hrun. rewrite Hrun. reflexivity.
    + rewrite length_zip_with, Hlen, length_map. lia.
    + exact (applied_column_lookup Build_review_predicted review _ _ _ _ _ Hlen Hcalls).
Qed.

(** *** The feedback loop *)

Lemma last_cons {T} (l : list T) (a d : T) : List.last (a :: l) d = List.last l a.
Proof.
  revert a d. induction l as [|b l IH]; intros a d; [reflexivity|].
  change (List.last (a :: b :: l) d) with (List.last (b :: l) d).
  rewrite (IH b d). symmetry. apply IH.
Qed.

(** From loop variables [v], the loop runs [N - i v] more iterations
    (none when that is negative): it calls the model once per iteration,
    first with [prefix v], then with the image of the previous response. *)
Lemma feedback_while (next_prompt : pystr -> pystr) (N : Z) (n : nat) :
  ∀ v st, Z.to_nat (N - i v) = n →
    ∃ rs st',
      (∀ fuel, (n <= fuel)%nat →
         while fuel (fun v => i v <? N) (feedback_body predict next_prompt) v st
         = Some (Ok {| prefix := List.last (map next_prompt rs) (prefix v);
                       i := Z.max (i v) N |}, st')) ∧
      length rs = n ∧
      calls st' = calls st ++ zip_with logged (prefix v :: map next_prompt rs) rs ∧
      stdout st' = stdout st ++ rs.
Proof.
  induction n as [|n IH]; intros v st Hn.
  - exists [], st. split; [|now rewrite !app_nil_r].
    intros fuel _. cbn [map List.last].
    assert (Hc : (i v <? N) = false) by (apply Z.ltb_ge; lia).
    destruct fuel; cbn [while]; rewrite Hc;
      (replace (Z.max (i v) N) with (i v) by lia); now destruct v.
  - assert (Hlt : i v < N) by lia.
    assert (Hc : (i v <? N) = true) by now apply Z.ltb_lt.
    destruct (call_predict_ok (prefix v) st) as (r & st1 & Hcall & Hc1 & Ho1).
    set (v1 := {| prefix := next_prompt r; i := i v + 1 |}).
    set (st2 := {| world := world st1; calls := calls st1;
                   stdout := stdout st1 ++ [r] |}).
    destruct (IH v1 st2) as (rs & st' & Hrun & Hlen & Hcalls & Hout).
    { cbn. lia. }
    exists (r :: rs), st'. split; [|split; [|split]].
    + intros fuel Hfuel. destruct fuel as [|fuel]; [lia|].
      cbn [while]. rewrite Hc.
      unfold feedback_body at 1, mbind, cell_bind. rewrite Hcall.
      cbn [print mret cell_ret]. fold v1 st2.
      rewrite (Hrun fuel) by lia. cbn [map]. rewrite last_cons.
      cbn [prefix i v1]. replace (Z.max (i v + 1) N) with (Z.max (i v) N) by lia. reflexivity.
    + cbn. now rewrite Hlen.
    + rewrite Hcalls. cbn [calls st2 prefix v1 map zip_with].
      rewrite Hc1, <- app_assoc. reflexivity.
    + rewrite Hout. cbn [stdout st2]. rewrite Ho1, <- app_assoc. reflexivity.
Qed.

Lemma prompts_of_logged (ps rs : list pystr) :
  map fst (zip_with logged ps rs) = take (length rs) ps.
Proof.
  revert rs. induction ps as [|p ps IH]; intros [|r rs]; cbn; try reflexivity.
  now rewrite IH.
Qed.

Lemma responses_of_logged (ps rs : list pystr) :
  (length rs <= length ps)%nat →
  omap (fun c : pystr * pyresult pystr =>
          match snd c with Ok r => Some r | Raise _ => None end)
       (zip_with logged ps rs) = rs.
Proof.
  revert rs. induction ps as [|p ps IH]; intros [|r rs] Hlen; cbn in *;
    try reflexivity; try lia.
  rewrite IH by lia. reflexivity.
Qed.

(** C7: with a model that answers every call, the loop bounded by [N]
    ends, for every fuel from [N] on, and has then called the model
    exactly [N] times (no call when [N] is negative), whatever the
    responses and whatever function builds the next prompt. *)
Theorem feedback_loop_calls (next_prompt : pystr -> pystr) (N : Z)
    (seed : pystr) (st : run World) :
  ∃ v st',
    (∀ fuel, (Z.to_nat N <= fuel)%nat →
       feedback_loop predict next_prompt N fuel seed st = Some (Ok v, st')) ∧
    Z.of_nat (length (calls st')) = Z.of_nat (length (calls st)) + Z.max 0 N.
Proof.
  destruct (feedback_while next_prompt N (Z.to_nat N) {| prefix := seed; i := 0 |} st)
    as (rs & st' & Hrun & Hlen & Hcalls & _).
  { cbn. f_equal. lia. }
  eexists _, st'. split; [exact Hrun|].
  rewrite Hcalls, length_app, length_zip_with. cbn [prefix length].
  rewrite length_map, Hlen. lia.
Qed.

(** C9: in the loops of the notebook the next prefix is the response
    text itself.  The first prompt is the seed, every later prompt is
    exactly the text returned by the call before it, and when the loop
    ends [prefix] is the last response (the seed when there was no
    iteration). *)
Theorem completion_loop_replaces_prefix (N : Z) (seed : pystr) (w : World) :
  ∃ v st',
    (∀ fuel, (Z.to_nat N <= fuel)%nat →
       completion_loop predict N fuel seed (start w) = Some (Ok v, st')) ∧
    length (responses st') = Z.to_nat N ∧
    prompts_sent st' = take (Z.to_nat N) (seed :: responses st') ∧
    (∀ k p, prompts_sent st' !! S k = Some p → responses st' !! k = Some p) ∧
    prefix v = List.last (responses st') seed.
Proof.
  destruct (feedback_while (fun text => text) N (Z.to_nat N)
              {| prefix := seed; i := 0 |} (start w))
    as (rs & st' & Hrun & Hlen & Hcalls & _).
  { cbn. f_equal. lia. }
  cbn [prefix i calls start app] in Hrun, Hcalls.
  rewrite map_id in Hrun, Hcalls.
  assert (Hresp : responses st' = rs).
  { unfold responses. rewrite Hcalls. apply responses_of_logged. cbn. lia. }
  assert (Hsent : prompts_sent st' = take (Z.to_nat N) (seed :: rs)).
  { unfold prompts_sent. rewrite Hcalls, prompts_of_logged. now rewrite Hlen. }
  eexists _, st'. split; [exact Hrun|]. rewrite Hresp, Hsent.
  split; [exact Hlen|]. split; [reflexivity|]. split; [|reflexivity].
  intros k p Hk. apply lookup_take_Some in Hk as [Hk _]. exact Hk.
Qed.

End CellFacts.

Lemma predictions_follow_input_order_witness :
  ∃ out st',
    predict_answers echo
      [ {| question := lit "1+1?"; answer_groundtruth := lit "2" |};
        {| question := lit "2+2?"; answer_groundtruth := lit "4" |} ]
      (start O) = (Ok out, st') ∧
    length out = 2%nat.
Proof.
  assert (Hresp : responsive echo).
  { intros w p. eexists _, _. reflexivity. }
  destruct (predictions_follow_input_order echo Hresp
              [ {| question := lit "1+1?"; answer_groundtruth := lit "2" |};
                {| question := lit "2+2?"; answer_groundtruth := lit "4" |} ]
              [] (start O))
    as [(out & st' & Hrun & Hlen & _) _].
  exists out, st'. split; [exact Hrun|exact Hlen].
Defined.

Lemma feedback_loop_calls_witness :
  ∃ v st',
    feedback_loop echo (fun text => lit "# next" ++ LF ++ text) 3 5
      (lit "def find_max_element(list):") (start O) = Some (Ok v, st') ∧
    Z.of_nat (length (calls st')) = 3.
Proof.
  assert (Hresp : responsive echo).
  { intros w p. eexists _, _. reflexivity. }
  destruct (feedback_loop_calls echo Hresp
              (fun text => lit "# next" ++ LF ++ text) 3
              (lit "def find_max_element(list):") (start O))
    as (v & st' & Hrun & Hcalls).
  exists v, st'. split; [apply Hrun; vm_compute; lia|exact Hcalls].
Defined.

Lemma completion_loop_replaces_prefix_witness :
  ∃ v st',
    cell_44 echo 3 (start O) = Some (Ok v, st') ∧
    length (responses st') = 3%nat ∧
    prefix v = List.last (responses st') (lit "def find_max_element(list):").
Proof.
  assert (Hresp : responsive echo).
  { intros w p. eexists _, _. reflexivity. }
  destruct (completion_loop_replaces_prefix echo Hresp 3
              (lit "def find_max_element(list):") O)
    as (v & st' & Hrun & Hlen & _ & _ & Hlast).
  exists v, st'. split; [apply Hrun; vm_compute; lia|]. split; [exact Hlen|exact Hlast].
Defined.

(** ** Averaging the scores *)

Section Averaging.
Import Float64Facts.

Variable inner_blocks : pystr -> pystr -> list Fuzz.block.

(** Every row gets a score: [get_fuzzy_match] does not raise. *)
Lemma score_each_spec (rows : list qa_answered) :
  ∃ scored,
    score_each inner_blocks rows = Ok scored ∧
    Forall2 (fun row sc =>
               scored_of sc = row ∧
               get_fuzzy_match inner_blocks row = Ok (match_score sc) ∧
               0 <= match_score sc <= 100)
            rows scored.
Proof.
  induction rows as [|row rest IH].
  - exists []. split; [reflexivity|constructor].
  - destruct IH as (scored & Hscored & Hall).
    destruct (score_total inner_blocks (answer_groundtruth row) (answer_prediction row))
      as (s & Hs & Hrange).
    exists ({| scored_of := row; match_score := s |} :: scored). split.
    + cbn [score_each]. unfold get_fuzzy_match at 1.
      change (Fuzz.partial_ratio inner_blocks (Some (answer_groundtruth row))
                (Some (answer_prediction row)))
        with (Fuzz.score inner_blocks (answer_groundtruth row) (answer_prediction row)).
      rewrite Hs. unfold mbind, pyresult_bind. fold (@pyresult_bind).
      unfold mbind in Hscored. rewrite Hscored. reflexivity.
    + constructor; [|exact Hall]. cbn. auto.
Qed.

Lemma score_rows_spec (qa_data_df : list qa_answered) :
  qa_data_df ≠ [] →
  ∃ rows,
    score_rows inner_blocks qa_data_df = Ok rows ∧
    Forall2 (fun row sc =>
               scored_of sc = row ∧
               get_fuzzy_match inner_blocks row = Ok (match_score sc) ∧
               0 <= match_score sc <= 100)
            qa_data_df rows.
Proof.
  intros Hne. destruct qa_data_df as [|row rest]; [congruence|].
  apply score_each_spec.
Qed.

Lemma sum_between (lo hi : Z) (rows : list qa_scored) :
  Forall (fun sc => lo <= match_score sc <= hi) rows →
  lo * Z.of_nat (length rows) <= foldr Z.add 0 (map match_score rows)
  <= hi * Z.of_nat (length rows).
Proof.
  induction 1 as [|r rows Hr _ IH]; [cbn; lia|].
  cbn [map foldr length]. lia.
Qed.

(** The mean of a column with values: the double nearest to the sum
    over the count. *)
Lemma mean_of_rows (rows : list qa_scored) :
  rows ≠ [] →
  ∃ q, average_match_score rows = Ok (Num (Float64.round_double q)) ∧
       (q * inject_Z (Z.of_nat (length rows))
        == inject_Z (foldr Z.add 0%Z (map match_score rows)))%Q.
Proof.
  intros Hne. unfold average_match_score, Pandas.mean. rewrite length_map.
  assert (Hpos : 0 < Z.of_nat (length rows)) by (destruct rows; [congruence|cbn; lia]).
  destruct (Z.eqb_spec (Z.of_nat (length rows)) 0) as [H0|_]; [lia|].
  eexists. split; [reflexivity|].
  unfold Qeq, Qmult, inject_Z; cbn [Qnum Qden].
  rewrite Pos.mul_1_r, Z2Pos.id by lia. ring.
Qed.

(** Scores between two integers that are doubles have their mean
    between them. *)
Lemma mean_between (lo hi : Z) (rows : list qa_scored) :
  rows ≠ [] → 0 <= lo →
  (Float64.round_double (inject_Z lo) == inject_Z lo)%Q →
  (Float64.round_double (inject_Z hi) == inject_Z hi)%Q →
  Forall (fun sc => lo <= match_score sc <= hi) rows →
  ∃ q, average_match_score rows = Ok (Num q) ∧
       (inject_Z lo <= q <= inject_Z hi)%Q.
Proof.
  intros Hne Hlo0 Elo Ehi Hall.
  destruct (mean_of_rows rows Hne) as (q & Hq & Hmean).
  exists (Float64.round_double q). split; [exact Hq|].
  assert (Hpos : 0 < Z.of_nat (length rows)) by (destruct rows; [congruence|cbn; lia]).
  destruct (sum_between lo hi rows Hall) as [Hslo Hshi].
  set (n := Z.of_nat (length rows)) in *.
  set (sum := foldr Z.add 0 (map match_score rows)) in *.
  assert (Hq1 : (inject_Z lo <= q)%Q).
  { apply Qmult_le_r with (z := inject_Z n); [now rewrite <- (Zlt_Qlt 0)|].
    rewrite Hmean, <- inject_Z_mult, <- Zle_Qle. exact Hslo. }
  assert (Hq2 : (q <= inject_Z hi)%Q).
  { apply Qmult_le_r with (z := inject_Z n); [now rewrite <- (Zlt_Qlt 0)|].
    rewrite Hmean, <- inject_Z_mult, <- Zle_Qle. exact Hshi. }
  assert (Hlo0' : (0 <= inject_Z lo)%Q) by now rewrite <- (Zle_Qle 0).
  assert (H1 := round_double_mono (inject_Z lo) q Hlo0' Hq1).
  assert (H2 := round_double_mono q (inject_Z hi) ltac:(lra) Hq2).
  lra.
Qed.


End Averaging.

(** * Further properties *)

(** ** f-strings *)

Module FStringMore.
Import FString.

Lemma eval_agree (B B' : scope) (tpl : template) :
  (∀ x, x ∈ fields tpl → lookup_name B x = lookup_name B' x) →
  eval B tpl = eval B' tpl.
Proof.
  induction tpl as [|[t|n] r IH]; intros Hag; [reflexivity| |].
  - cbn [eval]. rewrite IH by exact Hag. reflexivity.
  - cbn [eval]. rewrite <- (Hag n) by left.
    rewrite IH; [reflexivity|]. intros x Hx. apply Hag. now right.
Qed.

Lemma push_text_template (c : pychar) (s : pystr) :
  push_text c (text_template s) = text_template (c :: s).
Proof. destruct s; reflexivity. Qed.

Lemma scan_double_braces (s : pystr) :
  scan (double_braces s) false = Ok (text_template s).
Proof.
  induction s as [|c s IH]; [reflexivity|].
  cbn [double_braces].
  destruct (N.eqb_spec c lbrace) as [->|Hl]; cbn [orb].
  - cbn [scan]. change (N.eqb lbrace lbrace) with true. cbv iota.
    rewrite IH. unfold mbind, pyresult_bind. now rewrite push_text_template.
  - destruct (N.eqb_spec c rbrace) as [->|Hr].
    + cbn [scan]. change (N.eqb rbrace lbrace) with false.
      change (N.eqb rbrace rbrace) with true. cbv iota.
      rewrite IH. unfold mbind, pyresult_bind. now rewrite push_text_template.
    + cbn [scan].
      destruct (N.eqb_spec c lbrace) as [?|_]; [contradiction|].
      destruct (N.eqb_spec c rbrace) as [?|_]; [contradiction|].
      rewrite IH. unfold mbind, pyresult_bind. now rewrite push_text_template.
Qed.

End FStringMore.

(** X1: an f-string reads the scope only at its own fields: two scopes
    that agree on the names the template mentions give the same result,
    be it a string or an error, whatever else they bind. *)
Theorem render_reads_only_its_fields (T : pystr) (B B' : FString.scope) :
  (∀ tpl x, FString.parse T = Ok tpl → x ∈ FString.fields tpl →
            FString.lookup_name B x = FString.lookup_name B' x) →
  FString.render T B = FString.render T B'.
Proof.
  intros Hag. unfold FString.render.
  destruct (FString.parse T) as [tpl|e] eqn:Hp; [|reflexivity].
  unfold mbind, pyresult_bind. apply FStringMore.eval_agree.
  intros x Hx. now apply (Hag tpl).
Qed.

Lemma render_reads_only_its_fields_witness :
  FString.render Prompts.get_answer_template
    (<[ "question"%string := lit "unused" ]> (Prompts.row_scope (lit "1+1?")))
  = FString.render Prompts.get_answer_template (Prompts.row_scope (lit "1+1?")).
Proof.
  apply render_reads_only_its_fields.
  intros tpl x Hp Hx. rewrite PromptFacts.parse_get_answer in Hp.
  injection Hp as <-. cbn [FString.fields] in Hx.
  apply list_elem_of_singleton in Hx as ->.
  unfold FString.lookup_name.
  change (FString.name_of (lit "row")) with "row"%string.
  now rewrite lookup_insert_ne.
Defined.

(** X2: a text in which every brace is doubled is an f-string without
    fields: it evaluates, in any scope, to the text itself. *)
Theorem double_braces_render (s : pystr) (B : FString.scope) :
  FString.render (double_braces s) B = Ok s ∧
  FString.placeholders (double_braces s) = Ok [].
Proof.
  unfold FString.render, FString.placeholders, FString.parse.
  rewrite FStringMore.scan_double_braces.
  destruct s as [|c s]; [split; reflexivity|].
  cbn. now rewrite app_nil_r.
Qed.

(** ** The cells that read a context *)

Module ContextFacts.
Import FString ContextCells.

Lemma parse_open_book :
  parse open_book_template
  = Ok [Lit open_before; Field (lit "context"); Lit middle;
        Field (lit "question"); Lit after].
Proof. vm_compute. reflexivity. Qed.

Lemma parse_closed_domain :
  parse Prompts.closed_domain_template
  = Ok [Lit closed_before; Field (lit "context"); Lit middle;
        Field (lit "question"); Lit after].
Proof. vm_compute. reflexivity. Qed.

Lemma eval_context_question (B : scope) (before c q : pystr) :
  B !! "context"%string = Some c →
  B !! "question"%string = Some q →
  eval B [Lit before; Field (lit "context"); Lit middle;
          Field (lit "question"); Lit after]
  = Ok (before ++ c ++ middle ++ q ++ after).
Proof.
  intros Hc Hq. cbn [eval]. unfold lookup_name.
  change (FString.name_of (lit "context")) with "context"%string.
  change (FString.name_of (lit "question")) with "question"%string.
  rewrite Hc, Hq. unfold mbind, pyresult_bind. now rewrite app_nil_r.
Qed.

Lemma eval_no_context (B : scope) (before : pystr) :
  B !! "context"%string = None →
  eval B [Lit before; Field (lit "context"); Lit middle;
          Field (lit "question"); Lit after]
  = Raise (NameError "context").
Proof.
  intros Hc. cbn [eval]. unfold lookup_name.
  change (FString.name_of (lit "context")) with "context"%string.
  rewrite Hc. reflexivity.
Qed.

Section Run.

Context {World : Type}.
Variable predict_with : options -> World -> pystr -> pyresult pystr * World.

Lemma show_and_ask_run (opts : options) (prompt : pystr) (st : run World) :
  show_and_ask predict_with opts prompt st
  = let '(r, w') := predict_with opts (world st) prompt in
    (r, {| world := w';
           calls := calls st ++ [(prompt, r)];
           stdout := stdout st ++ [lit "[Prompt]"; prompt; lit "[Response]"] |}).
Proof.
  unfold show_and_ask, mbind, cell_bind, print, call_predict. cbn.
  destruct (predict_with opts (world st) prompt) as [r w'].
  now rewrite <- !app_assoc.
Qed.

Lemma qa_cell_8_eq (globals : scope) :
  qa_cell_8 predict_with globals
  = (<[ "prompt"%string := open_before ++ context_text ++ middle ++ question_8 ++ after ]>
       (<[ "question"%string := question_8 ]>
          (<[ "context"%string := context_text ]> globals)),
     show_and_ask predict_with no_options
       (open_before ++ context_text ++ middle ++ question_8 ++ after)).
Proof.
  unfold qa_cell_8, build_then, render.
  rewrite parse_open_book. unfold mbind at 1, pyresult_bind.
  rewrite (eval_context_question _ open_before context_text question_8);
    [reflexivity| |apply lookup_insert_eq].
  rewrite lookup_insert_ne by discriminate. apply lookup_insert_eq.
Qed.

Lemma qa_cell_9_eq (globals : scope) (c : pystr) :
  globals !! "context"%string = Some c →
  qa_cell_9 predict_with globals
  = (<[ "prompt"%string := closed_before ++ c ++ middle ++ question_9 ++ after ]>
       (<[ "question"%string := question_9 ]> globals),
     show_and_ask predict_with
       {| max_output_tokens := Some 256; temperature := Some (3 # 10)%Q |}
       (closed_before ++ c ++ middle ++ question_9 ++ after)).
Proof.
  intros Hc. unfold qa_cell_9, build_then, render.
  rewrite parse_closed_domain. unfold mbind at 1, pyresult_bind.
  rewrite (eval_context_question _ closed_before c question_9);
    [reflexivity| |apply lookup_insert_eq].
  now rewrite lookup_insert_ne.
Qed.

End Run.

End ContextFacts.

Section ContextCellTheorems.
Import ContextCells.

Context {World : Type}.
Variable predict_with : options -> World -> pystr -> pyresult pystr * World.

(** X3: run with a [context] among the globals, cell 9 builds its prompt
    from that context and from its own question, whatever [question] was
    bound to before; it leaves [question] and [prompt] rebound, prints
    the prompt between the two headers and makes one call, with that
    prompt. *)
Theorem cell_9_reads_stored_context (globals : FString.scope) (c : pystr)
    (st : run World) :
  globals !! "context"%string = Some c →
  let prompt := closed_before ++ c ++ middle ++ question_9 ++ after in
  (qa_cell_9 predict_with globals).1
    = <[ "prompt"%string := prompt ]> (<[ "question"%string := question_9 ]> globals) ∧
  ∃ r w',
    ((qa_cell_9 predict_with globals).2 st
     = (r, {| world := w';
              calls := calls st ++ [(prompt, r)];
              stdout := stdout st ++ [lit "[Prompt]"; prompt; lit "[Response]"] |})).
Proof.
  intros Hc prompt. rewrite (ContextFacts.qa_cell_9_eq predict_with globals c Hc).
  cbn [fst snd]. split; [reflexivity|].
  rewrite ContextFacts.show_and_ask_run.
  destruct (predict_with _ (world st) _) as [r w']. now exists r, w'.
Qed.

(** X4: run in a kernel whose globals have no [context], cell 9 stops at
    its f-string with [NameError: name 'context' is not defined]:
    [question] is rebound, no [prompt] is assigned, nothing is printed
    and the model is not called. *)
Theorem cell_9_needs_context (globals : FString.scope) (st : run World) :
  globals !! "context"%string = None →
  (qa_cell_9 predict_with globals).1 = <[ "question"%string := question_9 ]> globals ∧
  (qa_cell_9 predict_with globals).2 st = (Raise (NameError "context"), st).
Proof.
  intros Hc. unfold qa_cell_9, build_then, FString.render.
  rewrite ContextFacts.parse_closed_domain. unfold mbind, pyresult_bind.
  rewrite ContextFacts.eval_no_context; [split; reflexivity|].
  now rewrite lookup_insert_ne.
Qed.

(** X5: after cell 8, whatever the globals were, cell 9 finds the
    context of cell 8: the two cells send, in this order, the open-book
    prompt with the question of cell 8 and the closed-domain prompt with
    the same context and the question of cell 9, also when the first
    call raised. *)
Theorem cell_8_then_cell_9 (globals : FString.scope) (st : run World) :
  let after_8 := qa_cell_8 predict_with globals in
  let after_9 := qa_cell_9 predict_with after_8.1 in
  after_9.1 !! "context"%string = Some context_text ∧
  after_9.1 !! "question"%string = Some question_9 ∧
  prompts_sent (after_9.2 (after_8.2 st).2).2
  = prompts_sent st
    ++ [open_before ++ context_text ++ middle ++ question_8 ++ after;
        closed_before ++ context_text ++ middle ++ question_9 ++ after].
Proof.
  intros after_8 after_9.
  assert (H8 := ContextFacts.qa_cell_8_eq predict_with globals). fold after_8 in H8.
  assert (Hc : after_8.1 !! "context"%string = Some context_text).
  { rewrite H8. cbn [fst]. rewrite !lookup_insert_ne by discriminate.
    apply lookup_insert_eq. }
  assert (H9 := ContextFacts.qa_cell_9_eq predict_with after_8.1 context_text Hc).
  fold after_9 in H9. rewrite H9. cbn [fst snd]. split; [|split].
  - rewrite !lookup_insert_ne by discriminate. exact Hc.
  - rewrite lookup_insert_ne by discriminate. apply lookup_insert_eq.
  - rewrite H8. cbn [snd]. rewrite (ContextFacts.show_and_ask_run _ no_options).
    destruct (predict_with no_options (world st) _) as [r1 w1]. cbn [snd].
    rewrite ContextFacts.show_and_ask_run. cbn [world calls].
    destruct (predict_with _ w1 _) as [r2 w2].
    unfold prompts_sent. cbn [snd calls].
    rewrite !map_app, <- app_assoc. reflexivity.
Qed.

End ContextCellTheorems.

Lemma cell_9_reads_stored_context_witness :
  (ContextCells.qa_cell_9 (fun _ => echo) {[ "context"%string := lit "Cloud Storage." ]}).1
    !! "prompt"%string
  = Some (ContextCells.closed_before ++ lit "Cloud Storage." ++ ContextCells.middle
          ++ ContextCells.question_9 ++ ContextCells.after).
Proof.
  destruct (cell_9_reads_stored_context (fun _ => echo)
              {[ "context"%string := lit "Cloud Storage." ]}
              (lit "Cloud Storage.") (start O)) as [Hg _].
  - apply lookup_singleton_eq.
  - rewrite Hg. apply lookup_insert_eq.
Defined.

Lemma cell_9_needs_context_witness :
  (ContextCells.qa_cell_9 (fun _ => echo) ∅).2 (start O) = (Raise (NameError "context"), start O).
Proof.
  apply (cell_9_needs_context (fun _ => echo) ∅ (start O)).
  apply lookup_empty.
Defined.

(** ** Cells and loops with a model that may raise *)

Section AnyModel.

Context {World : Type}.
Variable predict : World -> pystr -> pyresult pystr * World.

Lemma call_predict_any (prompt : pystr) (st : run World) :
  ∃ r st',
    call_predict predict prompt st = (r, st') ∧
    calls st' = calls st ++ [(prompt, r)] ∧
    stdout st' = stdout st.
Proof.
  unfold call_predict. destruct (predict (world st) prompt) as [r w'].
  eexists r, _. split; [reflexivity|]. cbn. auto.
Qed.

Lemma get_answer_any (row : pystr) (st : run World) :
  ∃ r st',
    get_answer predict row st = (r, st') ∧
    calls st' = calls st
      ++ [(Prompts.answer_before ++ row ++ Prompts.answer_after, r)].
Proof.
  unfold get_answer, lift, mbind, cell_bind.
  rewrite PromptFacts.get_answer_prompt_eq.
  destruct (call_predict_any (Prompts.answer_before ++ row ++ Prompts.answer_after) st)
    as (r & st' & Hc & Hcalls & _).
  exists r, st'. now rewrite Hc.
Qed.

Lemma get_sentiment_any (row : pystr) (st : run World) :
  ∃ r st',
    get_sentiment predict row st = (r, st') ∧
    calls st' = calls st
      ++ [(Prompts.sentiment_before ++ row ++ Prompts.sentiment_after, r)].
Proof.
  unfold get_sentiment, lift, mbind, cell_bind.
  rewrite PromptFacts.get_sentiment_prompt_eq.
  destruct (call_predict_any (Prompts.sentiment_before ++ row ++ Prompts.sentiment_after) st)
    as (r & st' & Hc & Hcalls & _).
  exists r, st'. rewrite Hc. destruct r; cbn; auto.
Qed.

(** [Series.apply] stops at the first value whose call raises. *)
Lemma series_apply_any (func : pystr -> Cell World pystr) (prompt_of : pystr -> pystr) :
  (∀ x st, ∃ r st', func x st = (r, st') ∧
                    calls st' = calls st ++ [(prompt_of x, r)]) →
  ∀ xs st, ∃ res st' new,
    series_apply func xs st = (res, st') ∧
    calls st' = calls st ++ new ∧
    match res with
    | Ok ys =>
      length ys = length xs ∧ new = zip_with logged (map prompt_of xs) ys
    | Raise e =>
      ∃ ys x, xs !! length ys = Some x ∧
              new = zip_with logged (map prompt_of xs) ys ++ [(prompt_of x, Raise e)]
    end.
Proof.
  intros Hfunc. induction xs as [|x xs IH]; intros st.
  - exists (Ok []), st, []. cbn. now rewrite app_nil_r.
  - destruct (Hfunc x st) as (r & st1 & Hr & Hc1).
    cbn [series_apply]. unfold mbind, cell_bind. rewrite Hr.
    destruct r as [y|e].
    + destruct (IH st1) as (res & st2 & new & Hrun & Hc2 & Hres).
      fold (@cell_bind World). unfold mbind in Hrun. rewrite Hrun.
      destruct res as [ys|e].
      * destruct Hres as [Hlen ->].
        exists (Ok (y :: ys)), st2, (logged (prompt_of x) y :: zip_with logged (map prompt_of xs) ys).
        cbn. split; [reflexivity|]. rewrite Hc2, Hc1, <- app_assoc.
        split; [reflexivity|]. split; [now rewrite Hlen|reflexivity].
      * destruct Hres as (ys & x' & Hx' & ->).
        exists (Raise e), st2,
          (logged (prompt_of x) y :: zip_with logged (map prompt_of xs) ys
             ++ [(prompt_of x', Raise e)]).
        split; [reflexivity|]. rewrite Hc2, Hc1, <- app_assoc.
        split; [reflexivity|]. exists (y :: ys), x'. split; [exact Hx'|reflexivity].
    + exists (Raise e), st1, [(prompt_of x, Raise e)].
      split; [reflexivity|]. split; [exact Hc1|]. now exists [], x.
Qed.

(** X6: whatever the model does, the cell that fills
    [answer_prediction] (and the one that fills [sentiment_prediction])
    sends the prompts of the rows in row order, one call per row.  When
    every call returns, the data frame gets one prediction per row; when
    the call for a row raises, the cell raises that error, the rows
    after it are not sent and no column is assigned. *)
Theorem prediction_cell_stops_at_first_error
    (qa_data_df : list qa_row) (review_data_df : list review_row)
    (st : run World) :
  (∃ res st' new,
     predict_answers predict qa_data_df st = (res, st') ∧
     calls st' = calls st ++ new ∧
     let prompts :=
       map (fun row => Prompts.answer_before ++ question row ++ Prompts.answer_after)
           qa_data_df in
     match res with
     | Ok out =>
       ∃ ys, length ys = length qa_data_df ∧
             out = zip_with Build_qa_answered qa_data_df ys ∧
             new = zip_with logged prompts ys
     | Raise e =>
       ∃ ys row, qa_data_df !! length ys = Some row ∧
         new = zip_with logged prompts ys
               ++ [(Prompts.answer_before ++ question row ++ Prompts.answer_after,
                    Raise e)]
     end) ∧
  (∃ res st' new,
     predict_sentiments predict review_data_df st = (res, st') ∧
     calls st' = calls st ++ new ∧
     let prompts :=
       map (fun row => Prompts.sentiment_before ++ review row ++ Prompts.sentiment_after)
           review_data_df in
     match res with
     | Ok out =>
       ∃ ys, length ys = length review_data_df ∧
             out = zip_with Build_review_predicted review_data_df ys ∧
             new = zip_with logged prompts ys
     | Raise e =>
       ∃ ys row, review_data_df !! length ys = Some row ∧
         new = zip_with logged prompts ys
               ++ [(Prompts.sentiment_before ++ review row ++ Prompts.sentiment_after,
                    Raise e)]
     end).
Proof.
  split.
  - destruct (series_apply_any (get_answer predict)
                (fun row => Prompts.answer_before ++ row ++ Prompts.answer_after)
                get_answer_any (map question qa_data_df) st)
      as (res & st' & new & Hrun & Hcalls & Hres).
    unfold predict_answers, mbind, cell_bind. unfold mbind in Hrun. rewrite Hrun.
    destruct res as [ys|e].
    + eexists (Ok _), st', new. split; [reflexivity|]. split; [exact Hcalls|].
      destruct Hres as [Hlen ->]. rewrite length_map in Hlen.
      rewrite List.map_map. now exists ys.
    + exists (Raise e), st', new. split; [reflexivity|]. split; [exact Hcalls|].
      destruct Hres as (ys & x & Hx & ->).
      rewrite list_lookup_fmap in Hx.
      destruct (qa_data_df !! length ys) as [row|] eqn:Hrow; [|discriminate].
      injection Hx as <-. rewrite List.map_map. now exists ys, row.
  - destruct (series_apply_any (get_sentiment predict)
                (fun row => Prompts.sentiment_before ++ row ++ Prompts.sentiment_after)
                get_sentiment_any (map review review_data_df) st)
      as (res & st' & new & Hrun & Hcalls & Hres).
    unfold predict_sentiments, mbind, cell_bind. unfold mbind in Hrun. rewrite Hrun.
    destruct res as [ys|e].
    + eexists (Ok _), st', new. split; [reflexivity|]. split; [exact Hcalls|].
      destruct Hres as [Hlen ->]. rewrite length_map in Hlen.
      rewrite List.map_map. now exists ys.
    + exists (Raise e), st', new. split; [reflexivity|]. split; [exact Hcalls|].
      destruct Hres as (ys & x & Hx & ->).
      rewrite list_lookup_fmap in Hx.
      destruct (review_data_df !! length ys) as [row|] eqn:Hrow; [|discriminate].
      injection Hx as <-. rewrite List.map_map. now exists ys, row.
Qed.

(** From loop variables [v] the loop ends within [N - i v] iterations,
    whatever the model does. *)
Lemma feedback_while_any (next_prompt : pystr -> pystr) (N : Z) (n : nat) :
  ∀ v st, Z.to_nat (N - i v) = n →
    ∃ res st' new,
      (∀ fuel, (n <= fuel)%nat →
         while fuel (fun v => i v <? N) (feedback_body predict next_prompt) v st
         = Some (res, st')) ∧
      calls st' = calls st ++ new ∧
      stdout st' = stdout st ++ omap text_of new ∧
      (length new <= n)%nat ∧
      match res with
      | Ok v' => length new = n ∧ i v' = Z.max (i v) N
      | Raise e =>
        ∃ earlier p, new = earlier ++ [(p, Raise e)] ∧
                     Forall (fun c => is_Some (text_of c)) earlier
      end.
Proof.
  induction n as [|n IH]; intros v st Hn.
  - exists (Ok v), st, []. split; [|rewrite !app_nil_r; cbn; repeat split; lia].
    intros fuel _.
    assert (Hc : (i v <? N) = false) by (apply Z.ltb_ge; lia).
    destruct fuel; cbn [while]; now rewrite Hc.
  - assert (Hlt : i v < N) by lia.
    assert (Hc : (i v <? N) = true) by now apply Z.ltb_lt.
    destruct (call_predict_any (prefix v) st) as (r & st1 & Hcall & Hc1 & Ho1).
    destruct r as [r|e].
    + set (v1 := {| prefix := next_prompt r; i := i v + 1 |}).
      set (st2 := {| world := world st1; calls := calls st1;
                     stdout := stdout st1 ++ [r] |}).
      destruct (IH v1 st2) as (res & st' & new & Hrun & Hcalls & Hout & Hlen & Hres).
      { cbn. lia. }
      exists res, st', ((prefix v, Ok r) :: new). split; [|split; [|split; [|split]]].
      * intros fuel Hfuel. destruct fuel as [|fuel]; [lia|].
        cbn [while]. rewrite Hc.
        unfold feedback_body at 1, mbind, cell_bind. rewrite Hcall.
        cbn [print mret cell_ret]. fold v1 st2. apply Hrun. lia.
      * rewrite Hcalls. cbn [calls st2]. rewrite Hc1, <- app_assoc. reflexivity.
      * rewrite Hout. cbn [stdout st2 omap]. unfold text_of at 2. cbn [snd].
        rewrite Ho1, <- app_assoc. reflexivity.
      * cbn [length]. lia.
      * destruct res as [v'|e].
        -- destruct Hres as [Hl Hi]. cbn [length]. split; [lia|].
           rewrite Hi. cbn [i v1]. lia.
        -- destruct Hres as (earlier & p & -> & Hall).
           exists ((prefix v, Ok r) :: earlier), p. split; [reflexivity|].
           constructor; [now exists r|exact Hall].
    + exists (Raise e), st1, [(prefix v, Raise e)]. split; [|split; [|split; [|split]]].
      * intros fuel Hfuel. destruct fuel as [|fuel]; [lia|].
        cbn [while]. rewrite Hc.
        unfold feedback_body, mbind, cell_bind. now rewrite Hcall.
      * exact Hc1.
      * cbn. now rewrite app_nil_r.
      * cbn [length]. lia.
      * exists [], (prefix v). split; [reflexivity|constructor].
Qed.

(** X7: the feedback loop always ends, for every fuel from [N] on, and
    never calls the model more than [N] times.  It returns after exactly
    [N] calls with [i = N]; or it raises the error of a call that
    raised, which is then the last call made, all earlier ones having
    returned. *)
Theorem feedback_loop_bounded (next_prompt : pystr -> pystr) (N : Z)
    (seed : pystr) (st : run World) :
  ∃ res st' new,
    (∀ fuel, (Z.to_nat N <= fuel)%nat →
       feedback_loop predict next_prompt N fuel seed st = Some (res, st')) ∧
    calls st' = calls st ++ new ∧
    (length new <= Z.to_nat N)%nat ∧
    match res with
    | Ok v => length new = Z.to_nat N ∧ i v = Z.max 0 N
    | Raise e =>
      ∃ earlier p, new = earlier ++ [(p, Raise e)] ∧
                   Forall (fun c => is_Some (text_of c)) earlier
    end.
Proof.
  destruct (feedback_while_any next_prompt N (Z.to_nat N) {| prefix := seed; i := 0 |} st)
    as (res & st' & new & Hrun & Hcalls & _ & Hlen & Hres).
  { cbn. f_equal. lia. }
  exists res, st', new. auto.
Qed.

(** X8: the loop prints the text of every call that returned, once and
    in call order, and nothing else. *)
Theorem feedback_loop_prints_responses (next_prompt : pystr -> pystr) (N : Z)
    (seed : pystr) (st : run World) :
  ∃ res st' new,
    (∀ fuel, (Z.to_nat N <= fuel)%nat →
       feedback_loop predict next_prompt N fuel seed st = Some (res, st')) ∧
    calls st' = calls st ++ new ∧
    stdout st' = stdout st ++ omap text_of new.
Proof.
  destruct (feedback_while_any next_prompt N (Z.to_nat N) {| prefix := seed; i := 0 |} st)
    as (res & st' & new & Hrun & Hcalls & Hout & _).
  { cbn. f_equal. lia. }
  exists res, st', new. auto.
Qed.

End AnyModel.

(** ** More on the scores *)

Section ScoreMore.
Import Fuzz RoundFacts Float64Facts RatioFacts.

Context {A : Type} `{EqDecision A}.
Variable inner_blocks : list A -> list A -> list block.

(** X9: for strings of different lengths the score does not depend on
    which one is passed first. *)
Theorem score_symmetric (X Y : list A) :
  length X ≠ length Y →
  score inner_blocks X Y = score inner_blocks Y X.
Proof.
  intros Hlen. rewrite !score_unfold.
  destruct (decide (X = Y)) as [->|_]; [contradiction|].
  destruct (decide (Y = X)) as [->|_]; [contradiction|].
  rewrite (orb_comm (len Y =? 0)).
  destruct (_ || _); [reflexivity|].
  unfold partial_ratio_body, shorter_of, longer_of, len.
  destruct (Z.leb_spec (Z.of_nat (length X)) (Z.of_nat (length Y)));
    destruct (Z.leb_spec (Z.of_nat (length Y)) (Z.of_nat (length X)));
    try reflexivity; lia.
Qed.

Lemma body_suffix (pre s : list A) :
  best_block s (pre ++ s) (get_matching_blocks inner_blocks s (pre ++ s)) [] = Ok 100.
Proof.
  unfold get_matching_blocks. apply best_block_perfect. apply sentinel_suffix.
Qed.

Lemma score_suffix_l (pre : list A) (c : A) (s : list A) :
  score inner_blocks (pre ++ c :: s) (c :: s) = Ok 100.
Proof.
  rewrite score_unfold.
  destruct (decide _) as [_|Hne]; [reflexivity|].
  assert (Hpre : pre ≠ []) by (intros ->; now apply Hne).
  destruct (len (pre ++ c :: s) =? 0) eqn:H1; [apply len_eq_0 in H1; destruct pre; discriminate|].
  destruct (len (c :: s) =? 0) eqn:H2; [apply len_eq_0 in H2; discriminate|].
  cbn [orb]. unfold partial_ratio_body, shorter_of, longer_of.
  destruct (Z.leb_spec (len (pre ++ c :: s)) (len (c :: s))) as [Hle|_].
  - exfalso. unfold len in Hle. rewrite length_app in Hle.
    destruct pre; [congruence|cbn [length] in Hle; lia].
  - apply body_suffix.
Qed.

(** X10: when one string is a non-empty ending of the other, the score
    is 100, in either order and whatever comes before the ending. *)
Theorem score_of_suffix (pre : list A) (c : A) (s : list A) :
  score inner_blocks (pre ++ c :: s) (c :: s) = Ok 100 ∧
  score inner_blocks (c :: s) (pre ++ c :: s) = Ok 100.
Proof.
  split; [apply score_suffix_l|].
  rewrite score_unfold.
  destruct (decide _) as [_|Hne]; [reflexivity|].
  destruct (len (c :: s) =? 0) eqn:H2; [apply len_eq_0 in H2; discriminate|].
  destruct (len (pre ++ c :: s) =? 0) eqn:H1; [apply len_eq_0 in H1; destruct pre; discriminate|].
  cbn [orb]. unfold partial_ratio_body, shorter_of, longer_of.
  destruct (Z.leb_spec (len (c :: s)) (len (pre ++ c :: s))) as [_|Hlt].
  - apply body_suffix.
  - exfalso. unfold len in Hlt. rewrite length_app in Hlt. lia.
Qed.

Lemma window_score_disjoint (shorter w : list A) :
  shorter ≠ [] → (∀ c, c ∈ shorter → c ∉ w) → window_score shorter w = 0.
Proof.
  intros Hne Hd. unfold window_score. apply ratio_score_zero.
  rewrite float_ratio_lcs by exact Hne.
  rewrite lcs_disjoint by exact Hd.
  rewrite (round_double_comp _ 0); reflexivity.
Qed.

(** X11: two non-empty strings without a common character score 0. *)
Theorem score_of_disjoint (X Y : list A) :
  X ≠ [] → Y ≠ [] →
  (∀ c, c ∈ X → c ∉ Y) →
  score inner_blocks X Y = Ok 0.
Proof.
  intros HX HY Hd. rewrite score_unfold.
  destruct (decide (X = Y)) as [->|_].
  { destruct Y as [|c Y]; [congruence|]. exfalso. apply (Hd c); left. }
  destruct (len X =? 0) eqn:H1; [apply len_eq_0 in H1; congruence|].
  destruct (len Y =? 0) eqn:H2; [apply len_eq_0 in H2; congruence|].
  cbn [orb].
  destruct (partial_ratio_body_spec inner_blocks X Y) as (n & blk & Hn & _ & -> & _).
  rewrite Hn. f_equal.
  destruct (long_substr_window (shorter_of X Y) (longer_of X Y) blk)
    as (before & after & Hlong & _).
  assert (Hin : ∀ c, c ∈ long_substr (shorter_of X Y) (longer_of X Y) blk →
                     c ∈ longer_of X Y).
  { intros c Hc. rewrite Hlong, !elem_of_app. auto. }
  apply window_score_disjoint.
  - unfold shorter_of. now destruct (_ <=? _).
  - intros c Hc Hw. apply Hin in Hw. revert Hc Hw.
    unfold shorter_of, longer_of. destruct (_ <=? _); intros Hc Hw.
    + now apply (Hd c).
    + now apply (Hd c Hw).
Qed.

(** A window that scores 100 against a string of fewer than 100
    characters is that string: any other window has a ratio of at most
    197/198, which scores 99. *)
Lemma window_score_100 (shorter w : list A) :
  shorter ≠ [] → (length shorter < 100)%nat → (length w <= length shorter)%nat →
  window_score shorter w = 100 → w = shorter.
Proof.
  intros Hne Hshort Hw Hs.
  destruct (decide (w = shorter)) as [Heq|Hdiff]; [exact Heq|exfalso].
  assert (Hl := lcs_le_l shorter w). assert (Hr := lcs_le_r shorter w).
  assert (Hpos : (0 < length shorter)%nat) by (destruct shorter; [congruence|cbn; lia]).
  assert (Hlcs : (2 * lcs shorter w < length shorter + length w)%nat).
  { destruct (Nat.eq_dec (length w) (length shorter)) as [Hlen|Hlen]; [|lia].
    destruct (Nat.eq_dec (lcs shorter w) (length shorter)) as [Hfull|Hfull]; [|lia].
    exfalso. apply Hdiff. symmetry. apply lcs_full; [exact Hfull|lia]. }
  assert (Hratio : (ratio shorter w <= 197 # 198)%Q).
  { rewrite ratio_lcs by (unfold len; lia).
    unfold Qle, len; cbn [Qnum Qden]. rewrite Z2Pos.id by lia. lia. }
  destruct (ratio_range shorter w) as [H0 _].
  assert (Hle := ratio_score_mono _ _
                   (round_double_nonneg _ H0)
                   (round_double_mono _ _ H0 Hratio)
                   (proj2 (round_double_unit (197 # 198) ltac:(split; lra)))).
  fold (float_ratio shorter w) in Hle. fold (window_score shorter w) in Hle.
  assert (E : ratio_score (Float64.round_double (197 # 198)) = 99)
    by (vm_compute; reflexivity).
  lia.
Qed.

(** X12: a score of 100 between strings of which the shorter has fewer
    than 100 characters means that the shorter one occurs verbatim, as
    one piece, in the longer one. *)
Theorem score_100_is_verbatim (X Y : list A) :
  (length (shorter_of X Y) < 100)%nat →
  score inner_blocks X Y = Ok 100 →
  ∃ before after, longer_of X Y = before ++ shorter_of X Y ++ after.
Proof.
  intros Hshort Hs.
  destruct (decide (shorter_of X Y = [])) as [Hnil|Hne].
  { exists [], (longer_of X Y). now rewrite Hnil. }
  rewrite score_unfold in Hs.
  destruct (decide (X = Y)) as [->|_].
  { exists [], []. unfold shorter_of, longer_of. rewrite app_nil_r.
    now destruct (_ <=? _). }
  destruct (_ || _); [discriminate|].
  destruct (partial_ratio_body_spec inner_blocks X Y) as (n & blk & Hn & _ & Hw & _).
  rewrite Hn in Hs. injection Hs as ->.
  destruct (long_substr_window (shorter_of X Y) (longer_of X Y) blk)
    as (before & after & Hlong & Hlen).
  exists before, after.
  rewrite <- (window_score_100 (shorter_of X Y) _ Hne Hshort Hlen); auto.
Qed.


End ScoreMore.

Lemma score_symmetric_witness :
  Fuzz.score (fun _ _ => [(0, 4, 13)]) (lit "The Pacific Ocean") (lit "Pacific Ocean")
  = Fuzz.score (fun _ _ => [(0, 4, 13)]) (lit "Pacific Ocean") (lit "The Pacific Ocean").
Proof. apply score_symmetric. vm_compute. lia. Defined.

Lemma score_of_disjoint_witness :
  Fuzz.score (fun _ _ => []) (lit "yes") (lit "no") = Ok 0.
Proof.
  apply score_of_disjoint; [discriminate|discriminate|].
  apply Forall_forall. apply (bool_decide_unpack _). vm_compute. exact I.
Defined.

(** Characters are code points: the right single quotation mark
    (U+2019) and the left double quotation mark (U+201C) are two
    different characters, and two answers made of them have nothing in
    common. *)
Lemma quotation_marks_score (ib : pystr -> pystr -> list Fuzz.block) :
  Fuzz.score ib [8217%N] [8220%N] = Ok 0.
Proof.
  rewrite score_unfold.
  destruct (decide _) as [Heq|_]; [discriminate Heq|].
  change ((Fuzz.len [8217%N] =? 0) || (Fuzz.len [8220%N] =? 0)) with false.
  cbv iota.
  destruct (partial_ratio_body_spec ib [8217%N] [8220%N])
    as (n & blk & He & _ & Hn & _).
  rewrite He. f_equal. rewrite Hn.
  change (Fuzz.shorter_of [8217%N] [8220%N]) with [8217%N].
  change (Fuzz.longer_of [8217%N] [8220%N]) with [8220%N].
  destruct (long_substr_window [8217%N] [8220%N] blk)
    as (before & after & Hlong & _).
  apply window_score_disjoint; [discriminate|].
  intros c Hc Hw. apply list_elem_of_singleton in Hc as ->.
  assert (Hin : 8217%N ∈ [8220%N]).
  { rewrite Hlong, !elem_of_app. auto. }
  apply list_elem_of_singleton in Hin. discriminate Hin.
Qed.

Lemma score_100_is_verbatim_witness :
  ∃ before after, lit "The Pacific Ocean" = before ++ lit "Pacific Ocean" ++ after.
Proof.
  apply (score_100_is_verbatim (fun _ _ => [(0, 4, 13)])
           (lit "The Pacific Ocean") (lit "Pacific Ocean")).
  - vm_compute. lia.
  - apply pacific_ocean_score.
Defined.


(** ** The scoring cell and the average *)

Section ScoringCell.

Variable inner_blocks : pystr -> pystr -> list Fuzz.block.

(** X14: on a data frame with rows, the scoring cell returns as many
    rows as it was given, and the row at each position is the input row
    of that position with the score of its ground truth against its
    prediction, an integer between 0 and 100.  On a data frame without
    rows it raises [ValueError] and adds no column. *)
Theorem scoring_cell_scores_every_row (qa_data_df : list qa_answered) :
  match qa_data_df with
  | [] => score_rows inner_blocks qa_data_df = Raise ValueError
  | _ :: _ =>
    ∃ rows,
      score_rows inner_blocks qa_data_df = Ok rows ∧
      length rows = length qa_data_df ∧
      ∀ k row, qa_data_df !! k = Some row →
        ∃ s, rows !! k = Some {| scored_of := row; match_score := s |} ∧
             get_fuzzy_match inner_blocks row = Ok s ∧
             0 <= s <= 100
  end.
Proof.
  destruct qa_data_df as [|row0 rest]; [reflexivity|].
  destruct (score_rows_spec inner_blocks (row0 :: rest)) as (rows & Hrows & Hall);
    [discriminate|].
  exists rows. split; [exact Hrows|]. split.
  - symmetry. eapply Forall2_length. exact Hall.
  - intros k row Hrow.
    destruct (Forall2_lookup_l _ _ _ _ _ Hall Hrow) as (scored & Hk & Hof & Hs & Hr).
    exists (match_score scored). split; [|split; [exact Hs|exact Hr]].
    rewrite Hk. f_equal. destruct scored as [row1 s]. cbn in Hof. now subst row1.
Qed.

(** X15: for a data frame with at least one row, the average match
    score the last cell prints is a number between 0 and 100. *)
Theorem average_match_score_in_range (qa_data_df : list qa_answered) :
  qa_data_df ≠ [] →
  ∃ rows q,
    score_rows inner_blocks qa_data_df = Ok rows ∧
    average_match_score rows = Ok (Num q) ∧
    (0 <= q <= 100)%Q.
Proof.
  intros Hne.
  destruct (score_rows_spec inner_blocks qa_data_df Hne) as (rows & Hrows & Hall).
  destruct (mean_between 0 100 rows) as (q & Hq & Hrange).
  - intros ->. inversion Hall. congruence.
  - lia.
  - vm_compute. reflexivity.
  - vm_compute. reflexivity.
  - clear Hrows Hne. induction Hall as [|row r df rows (_ & _ & Hr) _ IH];
      constructor; auto.
  - exists rows, q. split; [exact Hrows|]. split; [exact Hq|].
    unfold inject_Z in Hrange. exact Hrange.
Qed.

(** X16: when every prediction is a non-empty ending of its ground
    truth (the whole of it, or the ground truth without some leading
    words), every row scores 100 and the average is 100. *)
Theorem average_of_endings_is_100 (qa_data_df : list qa_answered) :
  qa_data_df ≠ [] →
  (∀ row, row ∈ qa_data_df →
          answer_prediction row ≠ [] ∧
          ∃ lead, answer_groundtruth row = lead ++ answer_prediction row) →
  ∃ rows q,
    score_rows inner_blocks qa_data_df = Ok rows ∧
    Forall (fun scored => match_score scored = 100) rows ∧
    average_match_score rows = Ok (Num q) ∧
    (q == 100)%Q.
Proof.
  intros Hne Hend.
  destruct (score_rows_spec inner_blocks qa_data_df Hne) as (rows & Hrows & Hall).
  assert (H100 : Forall (fun scored => match_score scored = 100) rows).
  { clear Hrows Hne. induction Hall as [|row r df rows (_ & Hs & _) _ IH];
      constructor.
    - destruct (Hend row) as [Hp [lead Hg]]; [left|].
      unfold get_fuzzy_match in Hs. rewrite Hg in Hs.
      destruct (answer_prediction row) as [|c s]; [congruence|].
      change (Fuzz.partial_ratio inner_blocks (Some (lead ++ c :: s)) (Some (c :: s)))
        with (Fuzz.score inner_blocks (lead ++ c :: s) (c :: s)) in Hs.
      rewrite score_suffix_l in Hs. congruence.
    - apply IH. intros row' Hin. apply Hend. now right. }
  destruct (mean_between 100 100 rows) as (q & Hq & Hrange).
  - intros ->. inversion Hall. congruence.
  - lia.
  - vm_compute. reflexivity.
  - vm_compute. reflexivity.
  - eapply Forall_impl; [exact H100|]. cbn. intros r ->. lia.
  - exists rows, q. repeat split; auto.
    unfold inject_Z in Hrange. apply Qle_antisym; apply Hrange.
Qed.

End ScoringCell.

Lemma average_match_score_in_range_witness :
  ∃ rows q,
    score_rows (fun _ _ => [])
      [ {| qa_of := {| question := lit "2+2?"; answer_groundtruth := lit "four" |};
           answer_prediction := lit "4" |} ] = Ok rows ∧
    average_match_score rows = Ok (Num q) ∧
    (0 <= q <= 100)%Q.
Proof.
  apply (average_match_score_in_range (fun _ _ => [])).
  discriminate.
Defined.

(** The ground truths of the notebook and the predictions it recorded. *)
Lemma average_of_endings_is_100_witness :
  ∃ rows q,
    score_rows (fun _ _ => [])
      [ {| qa_of := {| question := lit "what does www stand for?";
                       answer_groundtruth := lit "World Wide Web" |};
           answer_prediction := lit "World Wide Web" |};
        {| qa_of := {| question := lit "Who was the first woman to win a Nobel Prize";
                       answer_groundtruth := lit "Marie Curie" |};
           answer_prediction := lit "Marie Curie" |};
        {| qa_of := {| question := lit "What is the name of the largest ocean?";
                       answer_groundtruth := lit "The Pacific Ocean" |};
           answer_prediction := lit "Pacific Ocean" |} ] = Ok rows ∧
    Forall (fun scored => match_score scored = 100) rows ∧
    average_match_score rows = Ok (Num q) ∧
    (q == 100)%Q.
Proof.
  apply (average_of_endings_is_100 (fun _ _ => [])); [discriminate|].
  intros row Hrow.
  repeat (apply elem_of_cons in Hrow as [->|Hrow]); [| | |inversion Hrow];
    (split; [discriminate|]).
  - now exists [].
  - now exists [].
  - now exists (lit "The ").
Defined.
